(** * util/cmd.py: the multi-command dispatch wrapper of viral-ngs

    A shallow embedding of [util/cmd.py] and the properties of its
    command-registration and dispatch engine.

    Python code runs in a state-and-exception monad over a record [World]
    that holds the process-wide mutable state the module touches
    ([sys.argv], [os.environ], [sys.modules], the directories on disk,
    [tempfile.tempdir], the root logger and the plugin registry).
    Function objects are first-order data ([Callable]); the closures that
    the module builds ([_main] in [main_command], [call_main] in
    [attach_main]) are constructors of that type, and calling one is the
    interpretation [call]. *)

From stdpp Require Import gmap strings list fin_maps pretty.
From Stdlib Require Import ZArith Ascii String.

Open Scope string_scope.
Open Scope list_scope.

(** ** Python values *)

(** Function objects.  [UserFunc name] is a function defined outside this
    module (a command implementation); its signature, docstring and behaviour
    come from the collaborators below.  The other two are the closures created
    in [main_command] and [attach_main], with the variables they capture. *)
Inductive Callable : Type :=
  | UserFunc (name : string)
  | _main (mainfunc : Callable) (mainfunc_args : gset string)
  | call_main (cmd_main : Callable).

Inductive Value : Type :=
  | VNone
  | VBool (b : bool)
  | VInt (n : Z)
  | VStr (s : string)
  | VFunc (f : Callable).

(** Python truth value testing ([if x:], [not x], [assert x]). *)
Definition truthy (v : Value) : bool :=
  match v with
  | VNone => false
  | VBool b => b
  | VInt n => negb (n =? 0)%Z
  | VStr EmptyString => false
  | VStr (String _ _) => true
  | VFunc _ => true
  end.

Definition is_None (v : Value) : bool :=
  match v with VNone => true | _ => false end.

Fixpoint callable_name (f : Callable) : string :=
  match f with
  | UserFunc name => name
  | _main mainfunc _ => callable_name mainfunc
  | call_main cmd_main => callable_name cmd_main
  end.

(** [str(v)], as used by the [%s] conversions of the module.  The address
    part of a function's representation is left out. *)
Definition pystr (v : Value) : string :=
  match v with
  | VNone => "None"
  | VBool true => "True"
  | VBool false => "False"
  | VInt n => pretty n
  | VStr s => s
  | VFunc f => "<function " +:+ callable_name f +:+ ">"
  end.

(** [argparse.Namespace]: [vars(args)] is a dict from attribute names to
    values. *)
Abbreviation Namespace := (gmap string Value).

Definition hasattr (args : Namespace) (name : string) : bool :=
  bool_decide (is_Some (args !! name)).

(** ** Exceptions and results *)

Inductive Exn : Type :=
  | AssertionError (msg : string)
  | BadInputError (reason : Value)
  | AttributeError (name : string)
  | IndexError
  | TypeError (msg : string)
  | ValueError (msg : string)
  | FileNotFoundError (path : string)
  | FileExistsError (path : string)
  | SystemExit (code : Z)
  | OtherError (name : string) (msg : string).

Inductive Result (A : Type) : Type :=
  | Ok (a : A)
  | Raise (e : Exn).
Arguments Ok {A} a.
Arguments Raise {A} e.

(** ** The process state *)

Inductive Plugin : Type :=
  | ThisModule                 (* sys.modules[__name__], i.e. util.cmd *)
  | MetadataModule             (* util.metadata *)
  | ExternalPlugin (name : string).

#[global] Instance Plugin_eq_dec : EqDecision Plugin.
Proof. solve_decision. Defined.

Inductive LogArg : Type :=
  | LogVal (v : Value)
  | LogStr (s : string)
  | LogJoined (items : list (string * Value)).

(** One call of a logging method on the root logger: the numeric level, the
    format string and its arguments, not yet rendered.  The list in [World]
    holds the records submitted to the logger, in order; whether a handler
    prints one depends on [log_level]. *)
Record LogRecord : Type := mkLogRecord {
  lr_level : Z;
  lr_msg : string;
  lr_args : list LogArg
}.

Record World : Type := mkWorld {
  sys_argv : list string;
  os_environ : gmap string string;
  sys_modules : gset string;
  fs_dirs : gset string;              (* the directories that exist *)
  tempfile_tempdir : option string;   (* tempfile.tempdir *)
  name_candidates : list string;      (* tempfile's random name sequence *)
  log_level : Z;                      (* level of the root logger *)
  log_handlers : nat;                 (* handlers added to the root logger *)
  log_records : list LogRecord;
  registry : list Plugin              (* cmd_plugin_mgr, registration order *)
}.

Definition set_environ (f : gmap string string → gmap string string) (w : World) : World :=
  mkWorld (sys_argv w) (f (os_environ w)) (sys_modules w) (fs_dirs w)
    (tempfile_tempdir w) (name_candidates w) (log_level w) (log_handlers w)
    (log_records w) (registry w).

Definition set_fs_dirs (f : gset string → gset string) (w : World) : World :=
  mkWorld (sys_argv w) (os_environ w) (sys_modules w) (f (fs_dirs w))
    (tempfile_tempdir w) (name_candidates w) (log_level w) (log_handlers w)
    (log_records w) (registry w).

Definition set_tempdir (d : option string) (w : World) : World :=
  mkWorld (sys_argv w) (os_environ w) (sys_modules w) (fs_dirs w)
    d (name_candidates w) (log_level w) (log_handlers w)
    (log_records w) (registry w).

Definition set_name_candidates (l : list string) (w : World) : World :=
  mkWorld (sys_argv w) (os_environ w) (sys_modules w) (fs_dirs w)
    (tempfile_tempdir w) l (log_level w) (log_handlers w)
    (log_records w) (registry w).

Definition set_logger (lvl : Z) (handlers : nat) (w : World) : World :=
  mkWorld (sys_argv w) (os_environ w) (sys_modules w) (fs_dirs w)
    (tempfile_tempdir w) (name_candidates w) lvl handlers
    (log_records w) (registry w).

Definition add_log_record (r : LogRecord) (w : World) : World :=
  mkWorld (sys_argv w) (os_environ w) (sys_modules w) (fs_dirs w)
    (tempfile_tempdir w) (name_candidates w) (log_level w) (log_handlers w)
    (log_records w ++ [r]) (registry w).

Definition set_registry (r : list Plugin) (w : World) : World :=
  mkWorld (sys_argv w) (os_environ w) (sys_modules w) (fs_dirs w)
    (tempfile_tempdir w) (name_candidates w) (log_level w) (log_handlers w)
    (log_records w) r.

(** ** The monad of Python computations *)

Definition M (A : Type) : Type := World → Result A * World.

Definition ret {A} (a : A) : M A := λ w, (Ok a, w).

Definition raise {A} (e : Exn) : M A := λ w, (Raise e, w).

Definition bind {A B} (m : M A) (k : A → M B) : M B :=
  λ w, match m w with
       | (Ok a, w') => k a w'
       | (Raise e, w') => (Raise e, w')
       end.

Definition lift {A} (r : Result A) : M A := λ w, (r, w).

Definition gets {A} (f : World → A) : M A := λ w, (Ok (f w), w).

Definition modify (f : World → World) : M unit := λ w, (Ok tt, f w).

(** [try: body finally: handler].  The handler runs on both outcomes of the
    body; the body's outcome is the outcome of the statement unless the
    handler itself raises. *)
Definition try_finally {A} (body : M A) (handler : M unit) : M A :=
  λ w, match body w with
       | (r, w') =>
           match handler w' with
           | (Ok _, w'') => (r, w'')
           | (Raise e, w'') => (Raise e, w'')
           end
       end.

Declare Scope py_scope.
Delimit Scope py_scope with py.
Notation "x <- m ;; k" := (bind m (λ x, k))
  (at level 100, m at next level, right associativity) : py_scope.
Notation "m ;;; k" := (bind m (λ _, k))
  (at level 100, right associativity) : py_scope.
Open Scope py_scope.

(** A call that works on an object in place yields its outcome together with
    the object as the call leaves it, also when it raises; [returned] is the
    call for a caller that has no further use for the object of a call that
    raised. *)
Definition returned {A O} (call : World → Result A * O * World) : M A :=
  λ w, match call w with
       | (r, _, w') => (r, w')
       end.

(** ** Strings and paths *)

(** [s.rsplit(sep, 1)] when [sep] occurs in [s]: the parts before and after
    the last occurrence. *)
Fixpoint rsplit1 (sep : ascii) (s : string) : option (string * string) :=
  match s with
  | EmptyString => None
  | String c rest =>
      match rsplit1 sep rest with
      | Some (a, b) => Some (String c a, b)
      | None => if Ascii.eqb c sep then Some (EmptyString, rest) else None
      end
  end.

Definition upper_ascii (c : ascii) : ascii :=
  let n := nat_of_ascii c in
  if (97 <=? n)%nat && (n <=? 122)%nat then ascii_of_nat (n - 32) else c.

(** [s.upper()] on ASCII text: the letters a to z become A to Z. *)
Fixpoint upper (s : string) : string :=
  match s with
  | EmptyString => EmptyString
  | String c rest => String (upper_ascii c) (upper rest)
  end.

(** Text is held in UTF-8; ASCII text is text without a byte above 127. *)
Fixpoint is_ascii (s : string) : bool :=
  match s with
  | EmptyString => true
  | String c rest => (nat_of_ascii c <? 128)%nat && is_ascii rest
  end.

Fixpoint ends_with_slash (s : string) : bool :=
  match s with
  | EmptyString => false
  | String c EmptyString => Ascii.eqb c "/"
  | String _ rest => ends_with_slash rest
  end.

(** [os.path.basename] and [os.path.join] of posixpath. *)
Definition os_path_basename (p : string) : string :=
  match rsplit1 "/" p with
  | Some (_, b) => b
  | None => p
  end.

Definition os_path_join (a b : string) : string :=
  if String.prefix "/" b then b
  else if bool_decide (a = "") || ends_with_slash a then a +:+ b
  else a +:+ "/" +:+ b.

(** The directory an entry is created in; "." stands for the working
    directory.  Paths are compared as written, without normalisation. *)
Definition parent_dir (p : string) : string :=
  match rsplit1 "/" p with
  | Some (EmptyString, _) => "/"
  | Some (a, _) => a
  | None => "."
  end.

(** [q] is [p] or lies below it. *)
Definition under (p q : string) : bool :=
  bool_decide (q = p) || String.prefix (p +:+ "/") q.

(** ** The file system and [tempfile] *)

Definition os_mkdir (path : string) : M unit :=
  λ w, if bool_decide (path ∈ fs_dirs w) then (Raise (FileExistsError path), w)
       else if bool_decide (parent_dir path ∈ fs_dirs w)
            then (Ok tt, set_fs_dirs (λ fs, {[path]} ∪ fs) w)
            else (Raise (FileNotFoundError path), w).

(** [shutil.rmtree(path)]: the directory and everything below it goes; a
    missing directory is an error. *)
Definition shutil_rmtree (path : option string) : M unit :=
  λ w, match path with
       | None => (Raise (TypeError "expected str, bytes or os.PathLike object, not NoneType"), w)
       | Some p =>
           if bool_decide (p ∈ fs_dirs w)
           then (Ok tt, set_fs_dirs (filter (λ q, under p q = false)) w)
           else (Raise (FileNotFoundError p), w)
       end.

(** [tempfile.gettempdir()]: the cached [tempfile.tempdir], or the first
    usable candidate, which is then cached. *)
Definition tempdir_candidates (w : World) : list string :=
  omap (λ e, os_environ w !! e) ["TMPDIR"; "TEMP"; "TMP"]
    ++ ["/tmp"; "/var/tmp"; "/usr/tmp"; "."].

Definition tempfile_gettempdir : M string :=
  λ w, match tempfile_tempdir w with
       | Some d => (Ok d, w)
       | None =>
           match List.find (λ d, bool_decide (d ∈ fs_dirs w)) (tempdir_candidates w) with
           | Some d => (Ok d, set_tempdir (Some d) w)
           | None => (Raise (FileNotFoundError "No usable temporary directory found"), w)
           end
       end.

Definition TMP_MAX : N := 10000.

(** The loop of [tempfile.mkdtemp]: candidate names are drawn until
    [os.mkdir] succeeds; a name that is taken is skipped. *)
Fixpoint mkdtemp_loop (dir prefix : string) (names : list string) (tries : N) : M string :=
  match names with
  | [] => raise (FileExistsError "No usable temporary directory name found")
  | name :: names' =>
      if (tries =? 0)%N
      then raise (FileExistsError "No usable temporary directory name found")
      else
        let file := os_path_join dir (prefix +:+ name) in
        λ w,
          match os_mkdir file (set_name_candidates names' w) with
          | (Ok _, w') => (Ok file, w')
          | (Raise (FileExistsError _), w') =>
              mkdtemp_loop dir prefix names' (tries - 1)%N w'
          | (Raise e, w') => (Raise e, w')
          end
  end.

Definition tempfile_mkdtemp (prefix : string) (dir : Value) : M string :=
  base <- match dir with
          | VNone => tempfile_gettempdir
          | VStr s => ret s
          | _ => raise (TypeError "expected str, bytes or os.PathLike object")
          end ;;
  names <- gets name_candidates ;;
  mkdtemp_loop base prefix names TMP_MAX.

(** ** The root logger *)

Definition log_call (level : Z) (msg : string) (args : list LogArg) : M unit :=
  modify (add_log_record (mkLogRecord level msg args)).

Definition log_debug := log_call 10.
Definition log_info := log_call 20.

(** The upper-case attributes of the [logging] module, which are all that
    [getattr(logging, log_level.upper(), None)] can find: the levels and the
    default format string (the private table [_STYLES], which [setLevel]
    refuses like the format string, is left out). *)
Definition logging_attrs : gmap string Value :=
  list_to_map
    [("CRITICAL", VInt 50); ("FATAL", VInt 50); ("ERROR", VInt 40);
     ("WARNING", VInt 30); ("WARN", VInt 30); ("INFO", VInt 20);
     ("DEBUG", VInt 10); ("NOTSET", VInt 0);
     ("BASIC_FORMAT", VStr "%(levelname)s:%(name)s:%(message)s")].

(** [s.rsplit('.', 1)[0]]. *)
Definition before_last_dot (s : string) : string :=
  match rsplit1 "." s with
  | Some (stem, _) => stem
  | None => s
  end.

Definition script_name : M string :=
  argv <- gets sys_argv ;;
  match argv with
  | [] => raise IndexError
  | argv0 :: _ => ret (before_last_dot (os_path_basename argv0))
  end.

(** ** argparse parsers *)

Definition SUPPRESS : string := "==SUPPRESS==".

Inductive ActionKind : Type :=
  | StoreAction
  | StoreTrueAction
  | HelpAction                 (* argparse._HelpAction *)
  | SubcommandHelpAction       (* the _HelpAction subclass of this module *)
  | VersionAction (version : string)
  | SubParsersAction.

(** An [argparse.ArgumentParser] with the attributes the module reads or
    writes.  A subparsers action lists its subcommands in the order they were
    added, each with the name and the [help] keyword passed to [add_parser]. *)
Inductive Parser : Type := mkParser {
  p_description : option string;
  p_usage : option string;
  p_add_help : bool;
  p_actions : list Action;
  p_defaults : gmap string Value
}
with Action : Type := mkAction {
  a_option_strings : list string;
  a_dest : string;
  a_kind : ActionKind;
  a_default : Value;
  a_help : option string;
  a_metavar : option string;
  a_title : option string;
  a_choices : list (option string * option string * Parser)
}.

Definition std_help_action : Action :=
  mkAction ["-h"; "--help"] "help" HelpAction (VStr SUPPRESS)
    (Some "show this help message and exit") None None [].

Definition ArgumentParser (description usage : option string) (add_help : bool) : Parser :=
  mkParser description usage add_help
    (if add_help then [std_help_action] else []) ∅.

Definition add_argument (a : Action) (p : Parser) : Parser :=
  mkParser (p_description p) (p_usage p) (p_add_help p) (p_actions p ++ [a])
    (p_defaults p).

Definition set_action_default (k : string) (v : Value) (a : Action) : Action :=
  if bool_decide (a_dest a = k)
  then mkAction (a_option_strings a) (a_dest a) (a_kind a) v (a_help a)
         (a_metavar a) (a_title a) (a_choices a)
  else a.

(** [parser.set_defaults(k=v)]: the parser-level default is recorded, and an
    argument already defined with that destination takes the new default. *)
Definition set_defaults (k : string) (v : Value) (p : Parser) : Parser :=
  mkParser (p_description p) (p_usage p) (p_add_help p)
    (map (set_action_default k v) (p_actions p))
    (<[k := v]> (p_defaults p)).

Definition set_description (d : option string) (p : Parser) : Parser :=
  mkParser d (p_usage p) (p_add_help p) (p_actions p) (p_defaults p).

(** The subcommands of a parser: the choices of its subparsers actions. *)
Definition is_subparsers (a : Action) : bool :=
  match a_kind a with
  | SubParsersAction => true
  | _ => false
  end.

Definition subcommands (p : Parser) : list (option string * option string * Parser) :=
  flat_map a_choices (filter (λ a, is_subparsers a = true) (p_actions p)).

(** ** Collaborators outside this module *)

Record ArgSpec : Type := mkArgSpec {
  as_args : list string;
  as_varargs : option string;
  as_keywords : option string
}.

(** How a function is called: [f(args)] with a namespace, or with keyword arguments
    only. *)
Inductive Actuals : Type :=
  | Positional (args : Namespace)
  | Keywords (kwargs : gmap string Value).

(** What a plugin contributes to the two extension points.  A [cmd_call_cmd]
    implementation receives the function object [cmd_main], the way to call
    it, and the parsed arguments. *)
Record HookImpls : Type := mkHookImpls {
  impl_configure_parser : option (Parser → M Parser);
  impl_call_cmd : option (Callable → (Namespace → M Value) → Namespace → M Value);
  impl_call_cmd_trylast : bool
}.

(** A parser-construction function [cmd_parser] of a command list: its
    [__doc__], the parser that [cmd_parser()] returns, and what
    [cmd_parser(p)] does to the parser object [p] it is given. *)
Record Builder : Type := mkBuilder {
  b_doc : option string;
  b_call0 : M Parser;
  b_call1 : Parser → M Parser
}.

Abbreviation Commands := (list (option string * Builder)).

Record Collaborators : Type := mkCollaborators {
  version : string;                                (* util.version.get_version() *)
  sys_version : string;                            (* sys.version *)
  getargspec : string → ArgSpec;                   (* signature of a user function *)
  func_doc : string → option string;               (* its __doc__ *)
  func_call : string → Actuals → M Value;          (* what calling it does *)
  plugin_impls : Plugin → HookImpls;               (* hooks of the other plugins *)
  parse_args : Parser → list string → M Namespace; (* ArgumentParser.parse_args *)
  keep_tmp : World → bool;                         (* util.file.keep_tmp() *)
  unicode_upper : string → string                  (* str.upper on text outside ASCII *)
}.

Section Cmd.

Variable E : Collaborators.

(** ** setup_logger (lines 55-61) *)

(** [s.upper()]: on ASCII text the letters a to z become A to Z; for other
    text the case mapping is Unicode's, which can turn a character outside
    ASCII into ASCII letters (the dotless i into I). *)
Definition str_upper (s : string) : string :=
  if is_ascii s then upper s else unicode_upper E s.

Definition setup_logger (log_level : Value) : M unit :=
  name <- match log_level with
          | VStr s => ret (str_upper s)
          | _ => raise (AttributeError "upper")
          end ;;
  let loglevel := default VNone (logging_attrs !! name) in
  if truthy loglevel then
    match loglevel with
    | VInt n => modify (λ w, set_logger n (S (log_handlers w)) w)
    | _ => raise (ValueError "Unknown level")
    end
  else raise (AssertionError ("unrecognized log level: " +:+ pystr log_level)).

(** ** The built-in hook implementations (lines 33-39) *)

Definition cmd_call_cmd (cmd_main : Namespace → M Value) (args : Namespace) : M Value :=
  cmd_main args.

Definition cmd_handle_file_arg (val : Value) : M Value :=
  ret val.

(** ** The hook registry *)

(** Modelled from the spec: the plugin manager [util.cmd_plugins.cmd_plugin_mgr]
    is not part of this module.  [register] adds a plugin unless its identity
    is already present; [list_name_plugin] returns the registered identities. *)
Definition register (p : Plugin) : M unit :=
  modify (λ w, if bool_decide (p ∈ registry w) then w
               else set_registry (registry w ++ [p]) w).

Definition list_name_plugin : M (list Plugin) :=
  gets registry.

Definition impls_of (p : Plugin) : HookImpls :=
  match p with
  | ThisModule =>
      mkHookImpls None (Some (λ _ cmd_main args, cmd_call_cmd cmd_main args)) true
  | _ => plugin_impls E p
  end.

Definition has_call_cmd (p : Plugin) : bool :=
  bool_decide (is_Some (impl_call_cmd (impls_of p))).

Definition is_trylast (p : Plugin) : bool :=
  impl_call_cmd_trylast (impls_of p).

(** Modelled from the spec: the order in which the implementations of
    [cmd_call_cmd] are tried is registration order, with the ones marked
    [trylast] after the others. *)
Definition call_cmd_order (reg : list Plugin) : list Plugin :=
  let having := filter (λ p, has_call_cmd p = true) reg in
  filter (λ p, is_trylast p = false) having ++ filter (λ p, is_trylast p = true) having.

(** Modelled from the spec: [cmd_call_cmd] is a first-result extension point;
    implementations are tried in order until one returns a result other than
    [None], and that result is the result of the hook call. *)
Fixpoint call_firstresult (impls : list (M Value)) : M Value :=
  match impls with
  | [] => ret VNone
  | impl :: rest =>
      res <- impl ;;
      if is_None res then call_firstresult rest else ret res
  end.

Definition run_impl (cmd_main : Callable) (run : Namespace → M Value)
    (args : Namespace) (p : Plugin) : M Value :=
  match impl_call_cmd (impls_of p) with
  | Some impl => impl cmd_main run args
  | None => ret VNone
  end.

Definition hook_cmd_call_cmd (cmd_main : Callable) (run : Namespace → M Value)
    (args : Namespace) : M Value :=
  reg <- gets registry ;;
  call_firstresult (map (run_impl cmd_main run args) (call_cmd_order reg)).

(** Modelled from the spec: for [cmd_configure_parser] every implementation
    runs, for its effect on the parser object. *)
Fixpoint configure_all (ps : list Plugin) (parser : Parser) : M Parser :=
  match ps with
  | [] => ret parser
  | p :: rest =>
      parser' <- match impl_configure_parser (impls_of p) with
                 | Some impl => impl parser
                 | None => ret parser
                 end ;;
      configure_all rest parser'
  end.

Definition hook_cmd_configure_parser (parser : Parser) : M Parser :=
  reg <- gets registry ;;
  configure_all reg parser.

(** ** load_cmd_plugins (lines 279-285) *)

Definition load_cmd_plugins : M unit :=
  plugins <- list_name_plugin ;;
  match plugins with
  | [] =>
      register ThisModule ;;;
      register MetadataModule
  | _ :: _ => ret tt
  end.

(** ** Calling function objects *)

(** Modelled from the spec: [util.misc.dict_subset] is not part of this module;
    it selects the entries of a dict whose keys lie in a given set. *)
Definition dict_subset (d : gmap string Value) (keys : gset string) : gmap string Value :=
  filter (λ kv, kv.1 ∈ keys) d.

(** Modelled from the spec: [util.misc.flatten] on the list of declared
    parameter names, which is already flat. *)
Definition flatten (names : list string) : list string := names.

(** [util.misc.getargspec]: a user function has the signature it declares; the
    closures [_main] and [call_main] are both declared as [def f(args)]. *)
Definition getargspec_of (f : Callable) : ArgSpec :=
  match f with
  | UserFunc name => getargspec E name
  | _main _ _ => mkArgSpec ["args"] None None
  | call_main _ => mkArgSpec ["args"] None None
  end.

(** [f.__doc__]; [util.misc.wraps] copies it from the wrapped function. *)
Fixpoint doc_of (f : Callable) : option string :=
  match f with
  | UserFunc name => func_doc E name
  | _main mainfunc _ => doc_of mainfunc
  | call_main cmd_main => doc_of cmd_main
  end.

Fixpoint call (f : Callable) (a : Actuals) : M Value :=
  match f with
  | UserFunc name => func_call E name a
  | _main mainfunc mainfunc_args =>
      (* return mainfunc( ** util.misc.dict_subset(vars(args), mainfunc_args) ) *)
      match a with
      | Positional args => call mainfunc (Keywords (dict_subset args mainfunc_args))
      | Keywords _ => raise (TypeError "_main() got an unexpected keyword argument")
      end
  | call_main cmd_main =>
      (* return cmd_plugin_mgr.hook.cmd_call_cmd(cmd_main=cmd_main, args=args, config={}) *)
      match a with
      | Positional args =>
          hook_cmd_call_cmd cmd_main (λ args', call cmd_main (Positional args')) args
      | Keywords _ => raise (TypeError "call_main() got an unexpected keyword argument")
      end
  end.

(** ** main_command (lines 110-124) *)

Definition main_command (mainfunc : Callable) : Result Callable :=
  let argspec := getargspec_of mainfunc in
  if bool_decide ((as_varargs argspec, as_keywords argspec) = (None, None))
  then
    let mainfunc_args : gset string := list_to_set (flatten (as_args argspec)) in
    Ok (_main mainfunc mainfunc_args)
  else Raise (AssertionError "Command impls with *args or **kwargs not supported").

(** ** attach_main (lines 126-142) *)

Definition attach_main (parser : Parser) (cmd_main : Callable) (split_args : bool) : M Parser :=
  cmd_main <- (if split_args then lift (main_command cmd_main) else ret cmd_main) ;;
  load_cmd_plugins ;;;
  parser <- hook_cmd_configure_parser parser ;;
  let parser := set_description (doc_of cmd_main) parser in
  ret (set_defaults "func_main" (VFunc (call_main cmd_main)) parser).

(** ** make_parser (lines 178-206) *)

Definition truthy_str (s : option string) : bool :=
  match s with
  | Some s => truthy (VStr s)
  | None => false
  end.

(** The [metavar] of the subparsers action: it moves the cursor up. *)
Definition cursor_up : string := String (ascii_of_nat 27) "[F".

(** Lines 199-203: the [help] of one subcommand, from the docstring of its
    parser-construction function. *)
Definition subcommand_help (doc : option string) : M (option string) :=
  let help_str :=
    match doc with
    | Some s => if truthy (VStr s) && (0 <? String.length s)%nat then Some s else None
    | None => None
    end in
  environ <- gets os_environ ;;
  modules <- gets sys_modules ;;
  if negb (truthy_str help_str) && truthy_str (environ !! "READTHEDOCS")
     || bool_decide ("sphinx" ∈ modules)
  then ret (Some "   ")
  else ret help_str.

(** [subparsers.add_parser(cmd_name, help=help_str)]: a name that the
    subparsers action already has is refused, as argparse does since
    Python 3.11; otherwise the subcommand gets a fresh parser. *)
Definition add_parser (added : list (option string * option string * Parser))
    (cmd_name : option string) : Result Parser :=
  if bool_decide (cmd_name ∈ map (λ entry, entry.1.1) added)
  then Raise (OtherError "ArgumentError"
                ("argument " +:+ cursor_up +:+ ": conflicting subparser: "
                   +:+ default "None" cmd_name))
  else Ok (ArgumentParser None None true).

(** Lines 198-205: the body of the loop over the command list; [added] are
    the subcommands added so far. *)
Definition add_subcommand (added : list (option string * option string * Parser))
    (cmd : option string * Builder) : M (option string * option string * Parser) :=
  let '(cmd_name, cmd_parser) := cmd in
  help_str <- subcommand_help (b_doc cmd_parser) ;;
  p <- lift (add_parser added cmd_name) ;;
  p <- b_call1 cmd_parser p ;;
  ret (cmd_name, help_str, p).

(** The loop of line 198. *)
Fixpoint add_subcommands (added : list (option string * option string * Parser))
    (commands : Commands) : M (list (option string * option string * Parser)) :=
  match commands with
  | [] => ret added
  | cmd :: rest =>
      entry <- add_subcommand added cmd ;;
      add_subcommands (added ++ [entry]) rest
  end.

Definition single_unnamed (commands : Commands) : bool :=
  match commands with
  | [(None, _)] => true
  | _ => false
  end.

Definition make_parser (commands : Commands) (description : string) : M Parser :=
  match commands with
  | [(None, cmd_parser)] =>
      (* only one (nameless) command in this script, simplify *)
      parser <- b_call0 cmd_parser ;;
      ret (set_defaults "command" (VStr "") parser)
  | _ =>
      (* multiple commands available *)
      let parser := ArgumentParser (Some description) (Some "%(prog)s subcommand") false in
      let parser :=
        add_argument
          (mkAction ["--help"; "-h"] "help" SubcommandHelpAction (VStr SUPPRESS)
             (Some SUPPRESS) None None []) parser in
      let parser :=
        add_argument
          (mkAction ["--version"; "-V"] "version" (VersionAction (version E)) (VStr SUPPRESS)
             (Some SUPPRESS) None None []) parser in
      subparsers <- add_subcommands [] commands ;;
      ret (add_argument
             (mkAction [] "command" SubParsersAction VNone None (Some cursor_up)
                (Some "subcommands") subparsers) parser)
  end.

(** ** main_argparse (lines 209-251) *)

Definition getattr (args : Namespace) (name : string) : M Value :=
  match args !! name with
  | Some v => ret v
  | None => raise (AttributeError name)
  end.

(** Lines 212-217: the help shown for a bare invocation, then the parse of the
    process arguments. *)
Definition parse_process_args (commands : Commands) (parser : Parser) : M Namespace :=
  argv <- gets sys_argv ;;
  (if (List.length argv =? 1)%nat then
     parse_args E parser ["--help"] ;;; ret tt
   else if (List.length argv =? 2)%nat then
     multi <- (if (1 <? List.length commands)%nat then ret true
               else match commands with
                    | [] => raise IndexError
                    | (name, _) :: _ => ret (bool_decide (is_Some name))
                    end) ;;
     if multi : bool then
       match argv !! 1%nat with
       | Some argv1 => parse_args E parser [argv1; "--help"] ;;; ret tt
       | None => raise IndexError
       end
     else ret tt
   else ret tt) ;;;
  argv <- gets sys_argv ;;
  parse_args E parser (tail argv).

(** Lines 219-222. *)
Definition log_invocation (args : Namespace) : M unit :=
  setup_logger (if negb (hasattr args "loglevel") then VStr "DEBUG"
                else default VNone (args !! "loglevel")) ;;;
  log_info "software version: %s, python version: %s"
    [LogStr (version E); LogStr (sys_version E)] ;;;
  argv <- gets sys_argv ;;
  match argv !! 0%nat, argv !! 1%nat with
  | Some argv0, Some argv1 =>
      log_info "command: %s %s %s"
        [LogStr argv0; LogStr argv1;
         LogJoined (filter (λ kv, kv.1 ∉ ["command"; "func_main"]) (map_to_list args))]
  | _, _ => raise IndexError
  end.

Definition log_path (d : option string) : LogArg :=
  match d with
  | Some s => LogStr s
  | None => LogVal VNone
  end.

(** Lines 229-234: the name proposed for the scoped directory, from the
    script name, the command and, under a scheduler, the job. *)
Definition proposed_dir (name : string) (command : Value) (environ : gmap string string)
    : string :=
  (* LSB_JOBID is for LSF, JOB_ID is for UGER/GridEngine *)
  match List.find (λ e, bool_decide (is_Some (environ !! e))) ["LSB_JOBID"; "JOB_ID"] with
  | Some e =>
      "tmp-" +:+ name +:+ "-" +:+ pystr command +:+ "-" +:+ default "" (environ !! e)
        +:+ "-" +:+ default "0" (environ !! "LSB_JOBINDEX")
  | None => "tmp-" +:+ name +:+ "-" +:+ pystr command
  end.

(** Lines 229-237: the scoped directory is created below [args.tmp_dir] and
    published through [tempfile.tempdir] and [TMPDIR]. *)
Definition make_scoped_tmp_dir (args : Namespace) : M unit :=
  name <- script_name ;;
  command <- getattr args "command" ;;
  environ <- gets os_environ ;;
  tmp_dir <- getattr args "tmp_dir" ;;
  d <- tempfile_mkdtemp (proposed_dir name command environ +:+ "-") tmp_dir ;;
  modify (set_tempdir (Some d)) ;;;
  tempdir <- gets tempfile_tempdir ;;
  log_debug "using tempDir: %s" [log_path tempdir] ;;;
  tempdir <- gets tempfile_tempdir ;;
  modify (set_environ (<["TMPDIR" := default "" tempdir]>)).

(** [args.func_main(args)]. *)
Definition call_func_main (args : Namespace) : M Value :=
  func_main <- getattr args "func_main" ;;
  match func_main with
  | VFunc f => call f (Positional args)
  | _ => raise (TypeError "object is not callable")
  end.

(** Lines 241-245: the body of the [finally] clause. *)
Definition keep_requested (args : Namespace) (w : World) : bool :=
  (hasattr args "tmp_dirKeep" && truthy (default VNone (args !! "tmp_dirKeep")))
  || keep_tmp E w.

Definition finish_tmp_dir (args : Namespace) : M unit :=
  keep <- gets (keep_requested args) ;;
  if keep : bool then
    command <- getattr args "command" ;;
    tempdir <- gets tempfile_tempdir ;;
    log_debug "After running %s, saving tmp_dir at %s" [LogVal command; log_path tempdir]
  else
    tempdir <- gets tempfile_tempdir ;;
    shutil_rmtree tempdir.

(** Lines 224-248. *)
Definition run_command (args : Namespace) : M Value :=
  if hasattr args "tmp_dir" then
    make_scoped_tmp_dir args ;;;
    try_finally (call_func_main args) (finish_tmp_dir args)
  else
    (* otherwise just run the command *)
    call_func_main args.

Definition main_argparse (commands : Commands) (description : string) : M Value :=
  parser <- make_parser commands description ;;
  args <- parse_process_args commands parser ;;
  log_invocation args ;;;
  ret_ <- run_command args ;;
  ret (if is_None ret_ then VInt 0 else ret_).

(** Everything [main_argparse] does before it runs the command: the parser is
    built, the process arguments are parsed and the logger is set up. *)
Definition startup (commands : Commands) (description : string) : M Namespace :=
  parser <- make_parser commands description ;;
  args <- parse_process_args commands parser ;;
  log_invocation args ;;;
  ret args.

(** ** check_input (lines 254-264) *)

Definition check_input (condition : Value) (error_msg : Value) : M Value :=
  if negb (truthy condition) then raise (BadInputError error_msg)
  else ret VNone.

(** ** Terminal control characters (lines 41-53) *)

Definition esc : string := String (ascii_of_nat 27) "".
Definition color_BOLD : string := esc +:+ "[1m".
Definition color_END : string := esc +:+ "[0m".

(** ** Python string methods used by the help action *)

Definition nl : string := String (ascii_of_nat 10) "".
Definition tab : string := String (ascii_of_nat 9) "".

(** The scan of [s.replace(old, new)] for a non-empty [old]: at an occurrence
    of [old] the replacement is emitted and the occurrence skipped, so that
    occurrences are replaced from the left and do not overlap. *)
Fixpoint replace_from (old new : string) (skip : nat) (s : string) : string :=
  match s with
  | EmptyString => EmptyString
  | String c rest =>
      match skip with
      | S k => replace_from old new k rest
      | O =>
          if String.prefix old s
          then new +:+ replace_from old new (String.length old - 1) rest
          else String c (replace_from old new 0 rest)
      end
  end.

(** An empty [old] matches before every character and at the end. *)
Fixpoint replace_empty (new : string) (s : string) : string :=
  match s with
  | EmptyString => new
  | String c rest => new +:+ String c (replace_empty new rest)
  end.

Definition str_replace (old new : string) (s : string) : string :=
  match old with
  | EmptyString => replace_empty new s
  | String _ _ => replace_from old new 0 s
  end.

(** Whitespace in the sense of [str.strip()], on ASCII text. *)
Definition is_space (c : ascii) : bool :=
  let n := nat_of_ascii c in
  ((9 <=? n)%nat && (n <=? 13)%nat) || ((28 <=? n)%nat && (n <=? 32)%nat).

Fixpoint lstrip (s : string) : string :=
  match s with
  | EmptyString => EmptyString
  | String c rest => if is_space c then lstrip rest else s
  end.

Fixpoint rstrip (s : string) : string :=
  match s with
  | EmptyString => EmptyString
  | String c rest =>
      match rstrip rest with
      | EmptyString => if is_space c then EmptyString else String c EmptyString
      | r => String c r
      end
  end.

Definition strip (s : string) : string := rstrip (lstrip s).

(** ** The help action (lines 144-175) *)

Definition indent_space : string := "     ".

(** Lines 163-165: line breaks and runs of blanks of the triple-quoted
    description are cleaned up. *)
Definition clean_description (description : string) : string :=
  strip
    (str_replace tab ""
       (str_replace "  " ""
          (str_replace ".  " ". "
             (str_replace nl "" description)))).

(** Lines 166-170: the text printed for a description; [fill] is
    [textwrap.fill]. *)
Definition format_description (fill : string → nat → string) (description : string) : string :=
  let help_description := clean_description description in
  (* wrap text to a set width *)
  let help_description := fill help_description 60%nat in
  (* indent each line *)
  let help_description :=
    str_replace nl (nl +:+ indent_space +:+ indent_space) help_description in
  (indent_space +:+ indent_space) +:+ help_description.

(** Lines 159-170: what is printed for one subcommand, one string for each
    call of [print]. *)
Definition print_subcommand (fill : string → nat → string) (argv0 : string)
    (choice : string) (subparser : Parser) : list string :=
  (nl +:+ indent_space +:+ os_path_basename argv0 +:+ " "
     +:+ (color_BOLD +:+ choice +:+ color_END) +:+ " [...]")
  :: match p_description subparser with
     | Some d => if truthy (VStr d) then [format_description fill d] else []
     | None => []
     end.

(** ** common_args (lines 68-108) *)

(** One call of [parser.add_argument], with the keywords that [common_args]
    passes. *)
Record AddArgument : Type := mkAddArgument {
  arg_flags : list string;
  arg_dest : option string;
  arg_action : option string;
  arg_type : option string;
  arg_help : option string;
  arg_default : option Value;
  arg_choices : option (list string);
  arg_version : option Value
}.

(** The destination of an optional argument without [dest]: the first long
    flag, or else the first flag, without its leading dashes and with the
    other dashes as underscores. *)
Fixpoint lstrip_dashes (s : string) : string :=
  match s with
  | String "-" rest => lstrip_dashes rest
  | _ => s
  end.

Definition dest_of_flags (flags : list string) : string :=
  match List.find (String.prefix "--") flags, flags with
  | Some f, _ => str_replace "-" "_" (lstrip_dashes f)
  | None, f :: _ => str_replace "-" "_" (lstrip_dashes f)
  | None, [] => ""
  end.

(** The argument that the call defines, in the attributes that [Parser]
    keeps; a version action has [SUPPRESS] as its default. *)
Definition action_of (a : AddArgument) : Action :=
  let dest := default (dest_of_flags (arg_flags a)) (arg_dest a) in
  match arg_action a with
  | Some "store_true" =>
      mkAction (arg_flags a) dest StoreTrueAction (default (VBool false) (arg_default a))
        (arg_help a) None None []
  | Some "version" =>
      mkAction (arg_flags a) dest (VersionAction (pystr (default VNone (arg_version a))))
        (VStr SUPPRESS)
        (Some (default "show program's version number and exit" (arg_help a))) None None []
  | _ =>
      mkAction (arg_flags a) dest StoreAction (default VNone (arg_default a))
        (arg_help a) None None []
  end.

(** The option strings a parser already defines; [add_argument] refuses an
    argument that uses one of them again. *)
Definition option_strings (p : Parser) : list string :=
  flat_map a_option_strings (p_actions p).

Definition add_argument_checked (a : Action) (p : Parser) : Result Parser :=
  match filter (λ f, f ∈ option_strings p) (a_option_strings a) with
  | [] => Ok (add_argument a p)
  | conflicts =>
      Raise (OtherError "ArgumentError"
               ("argument " +:+ String.concat "/" (a_option_strings a)
                  +:+ ": conflicting option string"
                  +:+ match conflicts with [_] => "" | _ => "s" end
                  +:+ ": " +:+ String.concat ", " conflicts))
  end.

(** A run of [add_argument] calls on a parser object: the outcome, and the
    parser as the calls leave it.  A call that is refused changes nothing, so
    that the parser then has the arguments of the calls before it. *)
Fixpoint add_arguments (calls : list AddArgument) (p : Parser) : Result unit * Parser :=
  match calls with
  | [] => (Ok tt, p)
  | a :: rest =>
      match add_argument_checked (action_of a) p with
      | Ok p' => add_arguments rest p'
      | Raise e => (Raise e, p)
      end
  end.

Definition loglevel_choices : list string :=
  ["DEBUG"; "INFO"; "WARNING"; "ERROR"; "CRITICAL"; "EXCEPTION"].

Definition tmp_dirKeep_help : string :=
  "Keep the tmp_dir if an exception occurs while" +:+ nl
  +:+ "                    running. Default is to delete all temp files at" +:+ nl
  +:+ "                    the end, even if there's a failure.".

(** The calls of [add_argument] made for one entry [(k, v)] of [arglist];
    [None] for an entry that is not recognized.  [tmp_default] is what
    [util.file.find_tmp_dir()] returns. *)
Definition common_arg (tmp_default : string) (k : string) (v : Value)
    : option (list AddArgument) :=
  if bool_decide (k = "loglevel") then
    let v := if negb (truthy v) then VStr "INFO" else v in
    Some [mkAddArgument ["--loglevel"] (Some "loglevel") None None
            (Some "Verboseness of output.  [default: %(default)s]")
            (Some v) (Some loglevel_choices) None]
  else if bool_decide (k = "tmp_dir") then
    let v := if negb (truthy v) then VStr tmp_default else v in
    Some [mkAddArgument ["--tmp_dir"] (Some "tmp_dir") None None
            (Some "Base directory for temp files. [default: %(default)s]")
            (Some v) None None;
          mkAddArgument ["--tmp_dirKeep"] (Some "tmp_dirKeep") (Some "store_true") None
            (Some tmp_dirKeep_help) (Some (VBool false)) None None]
  else if bool_decide (k = "threads") then
    let text_default := if is_None v then "all available cores" else pystr v in
    Some [mkAddArgument ["--threads"] (Some "threads") None (Some "int")
            (Some ("Number of threads (default: " +:+ text_default +:+ ")"))
            (Some v) None None]
  else if bool_decide (k = "version") then
    let v := if negb (truthy v) then VStr (version E) else v in
    Some [mkAddArgument ["--version"; "-V"] None (Some "version") None None None None (Some v)]
  else None.

(** [common_args] adds to the parser object it is given and returns that
    object: the result is the outcome, the parser as the call leaves it, and
    the process state.  When the call raises at an entry of [arglist], the
    parser keeps the arguments that were added for the entries before it.
    [find_tmp_dir] is [util.file.find_tmp_dir], which is consulted only for a
    [tmp_dir] entry without a value. *)
Fixpoint common_args (find_tmp_dir : World → string) (parser : Parser)
    (arglist : list (string * Value)) (w : World) : Result Parser * Parser * World :=
  match arglist with
  | [] => (Ok parser, parser, w)
  | (k, v) :: rest =>
      match common_arg (find_tmp_dir w) k v with
      | Some calls =>
          match add_arguments calls parser with
          | (Ok _, parser) => common_args find_tmp_dir parser rest w
          | (Raise e, parser) => (Raise e, parser, w)
          end
      | None =>
          (Raise (OtherError "Exception" ("unrecognized argument " +:+ k)), parser, w)
      end
  end.

Definition default_arglist : list (string * Value) :=
  [("tmp_dir", VNone); ("loglevel", VNone)].

(** ** run_cmd (lines 266-277) *)

(** The [module] argument: the name of a loaded module, or the module
    object, of which only its [__commands__] attribute matters. *)
Inductive ModuleRef : Type :=
  | ModuleName (name : string)
  | ModuleObject (commands : option Commands).

(** [dict(pairs)[cmd]]: of several pairs with the same key the last one
    counts. *)
Definition dict_getitem (pairs : Commands) (cmd : string) : option Builder :=
  match last (filter (λ c, c.1 = Some cmd) pairs) with
  | Some c => Some c.2
  | None => None
  end.

(** [loaded] gives the module object for a name in [sys.modules].  The parser
    that is used is the one [parser_fn] returns; the parser-construction
    functions of a command list return the parser they were given. *)
Definition run_cmd (loaded : string → option Commands) (module : ModuleRef)
    (cmd : string) (args : list Value) : M Value :=
  commands <- match module with
              | ModuleName name =>
                  modules <- gets sys_modules ;;
                  if bool_decide (name ∈ modules) then ret (loaded name)
                  else raise (OtherError "KeyError" name)
              | ModuleObject commands => ret commands
              end ;;
  commands <- match commands with
              | Some commands => ret commands
              | None => raise (AttributeError "__commands__")
              end ;;
  parser_fn <- match dict_getitem commands cmd with
               | Some parser_fn => ret parser_fn
               | None => raise (OtherError "KeyError" cmd)
               end ;;
  parser <- b_call1 parser_fn (ArgumentParser None None true) ;;
  args_parsed <- parse_args E parser (map pystr args) ;;
  call_func_main args_parsed ;;;
  ret VNone.

(** ** Predicates on strings *)

(** The character occurs in the string. *)
Fixpoint char_in (c : ascii) (s : string) : bool :=
  match s with
  | EmptyString => false
  | String d rest => Ascii.eqb d c || char_in c rest
  end.

Definition starts_with_blank (s : string) : bool :=
  match s with
  | String c _ => Ascii.eqb c " "
  | EmptyString => false
  end.

(** Two blanks in a row occur in the string. *)
Fixpoint double_blank (s : string) : bool :=
  match s with
  | String c rest => (Ascii.eqb c " " && starts_with_blank rest) || double_blank rest
  | EmptyString => false
  end.

(** Every line break in the string is followed by the given indentation. *)
Fixpoint breaks_indented (indent : string) (s : string) : bool :=
  match s with
  | EmptyString => true
  | String c rest =>
      (if Ascii.eqb c (ascii_of_nat 10) then String.prefix indent rest else true)
      && breaks_indented indent rest
  end.

(** The level names that [setup_logger] accepts, with their levels. *)
Definition level_named (name : string) : option Z :=
  if bool_decide (name = "CRITICAL") then Some 50%Z
  else if bool_decide (name = "FATAL") then Some 50%Z
  else if bool_decide (name = "ERROR") then Some 40%Z
  else if bool_decide (name = "WARNING") then Some 30%Z
  else if bool_decide (name = "WARN") then Some 30%Z
  else if bool_decide (name = "INFO") then Some 20%Z
  else if bool_decide (name = "DEBUG") then Some 10%Z
  else None.

(** The keys that [common_args] recognizes, and the option strings and
    destinations each of them adds. *)
Definition common_flags (k : string) : list string :=
  if bool_decide (k = "loglevel") then ["--loglevel"]
  else if bool_decide (k = "tmp_dir") then ["--tmp_dir"; "--tmp_dirKeep"]
  else if bool_decide (k = "threads") then ["--threads"]
  else if bool_decide (k = "version") then ["--version"; "-V"]
  else [].

Definition common_dests (k : string) : list string :=
  if bool_decide (k = "loglevel") then ["loglevel"]
  else if bool_decide (k = "tmp_dir") then ["tmp_dir"; "tmp_dirKeep"]
  else if bool_decide (k = "threads") then ["threads"]
  else if bool_decide (k = "version") then ["version"]
  else [].

Definition common_keys : list string := ["loglevel"; "tmp_dir"; "threads"; "version"].

(** ** Further definitions for the statements *)

(** The two records that the logging step submits. *)
Definition version_record : LogRecord :=
  mkLogRecord 20 "software version: %s, python version: %s"
    [LogStr (version E); LogStr (sys_version E)].

Definition invocation_record (argv0 argv1 : string) (items : list (string * Value))
    : LogRecord :=
  mkLogRecord 20 "command: %s %s %s" [LogStr argv0; LogStr argv1; LogJoined items].

(** The message of the assertion in [main_command]. *)
Definition assertion_message : string :=
  "Command impls with *args or **kwargs not supported".

(** The parser after a run of [add_argument] calls without conflict. *)
Definition with_arguments (calls : list AddArgument) (p : Parser) : Parser :=
  mkParser (p_description p) (p_usage p) (p_add_help p)
    (p_actions p ++ map action_of calls) (p_defaults p).

(** The line break, the tab, and the indentation of a printed description. *)
Definition nl_char : ascii := ascii_of_nat 10.
Definition tab_char : ascii := ascii_of_nat 9.

Definition indent10 : string := indent_space +:+ indent_space.

(** ** Predicates of the statements below *)

(** A signature with a variadic-positional or a variadic-keyword parameter. *)
Definition variadic (s : ArgSpec) : Prop :=
  as_varargs s ≠ None ∨ as_keywords s ≠ None.

(** The implementations of [cmd_call_cmd] that are registered are exactly the
    built-in one of this module. *)
Definition only_builtin_call_cmd (reg : list Plugin) : Prop :=
  filter (λ p, has_call_cmd p = true) reg = [ThisModule].

(** Two actions that differ at most in their default. *)
Definition same_but_default (a' a : Action) : Prop :=
  a_option_strings a' = a_option_strings a ∧ a_dest a' = a_dest a
  ∧ a_kind a' = a_kind a ∧ a_help a' = a_help a ∧ a_metavar a' = a_metavar a
  ∧ a_title a' = a_title a ∧ a_choices a' = a_choices a.

(** A parser-construction function that leaves [os.environ] and
    [sys.modules] as they are. *)
Definition keeps_docs_mode (b : Builder) : Prop :=
  ∀ p w r w', b_call1 b p w = (r, w') →
    os_environ w' = os_environ w ∧ sys_modules w' = sys_modules w.

(** The help of a subcommand when sphinx is not loaded: the docstring of its
    parser-construction function when there is one and it is not empty;
    otherwise three blanks when [READTHEDOCS] has a non-empty value, and
    nothing when it has not. *)
Definition help_as_documented (environ : gmap string string)
    (cmd : option string * Builder) (entry : option string * option string * Parser) : Prop :=
  entry.1.1 = cmd.1
  ∧ entry.1.2 = match b_doc cmd.2 with
                | Some (String c s) => Some (String c s)
                | _ => if truthy_str (environ !! "READTHEDOCS") then Some "   " else None
                end.

(** The record logged when the scoped directory is kept. *)
Definition kept_record (command : Value) (d : string) : LogRecord :=
  mkLogRecord 10 "After running %s, saving tmp_dir at %s" [LogVal command; LogStr d].

(** What [main_argparse] makes of the outcome of the command. *)
Definition exit_status (r : Result Value) : Result Value :=
  match r with
  | Ok v => Ok (if is_None v then VInt 0 else v)
  | Raise e => Raise e
  end.

(** ** The specification's reading of two steps, for comparison *)

(** The specification's words for the help of a subcommand: the builder's
    documentation string, with an empty string in its place exactly when the
    documentation is absent and [READTHEDOCS] is set. *)
Definition spec_subcommand_help (doc : option string) (w : World) : option string :=
  match doc with
  | Some s => Some s
  | None => if bool_decide (is_Some (os_environ w !! "READTHEDOCS")) then Some "" else None
  end.

Definition names_subcommand (commands : Commands) (a : string) : bool :=
  bool_decide (Some a ∈ map fst commands).

(** The specification's words for the handling of bare invocations: help is
    forced for no argument, and for one argument that names a subcommand of a
    multi-command list; otherwise the argument is parsed normally. *)
Definition spec_parse_process_args (commands : Commands) (parser : Parser) : M Namespace :=
  argv <- gets sys_argv ;;
  match argv with
  | [_] => parse_args E parser ["--help"] ;;; ret tt
  | [_; argv1] =>
      if negb (single_unnamed commands) && names_subcommand commands argv1
      then parse_args E parser [argv1; "--help"] ;;; ret tt
      else ret tt
  | _ => ret tt
  end ;;;
  argv <- gets sys_argv ;;
  parse_args E parser (tail argv).

End Cmd.

(** * A sample script

    A two-command script in the style of the scripts that use this module,
    with a small stand-in for [argparse]'s parsing; the examples below run
    the module on it. *)

Module Sample.

Definition lookup_subcommand (name : string)
    (subs : list (option string * option string * Parser)) : option Parser :=
  match List.find (λ e, bool_decide (e.1.1 = Some name)) subs with
  | Some e => Some e.2
  | None => None
  end.

Definition apply_action (argv : list string) (ns : Namespace) (a : Action) : Namespace :=
  if bool_decide (a_dest a = SUPPRESS) then ns
  else
    match a_kind a, a_default a with
    | StoreTrueAction, d =>
        if bool_decide (Exists (λ o, o ∈ argv) (a_option_strings a))
        then <[a_dest a := VBool true]> ns
        else <[a_dest a := d]> ns
    | StoreAction, d => <[a_dest a := d]> ns
    | _, _ => ns
    end.

(** Defaults of the arguments, then the parser-level defaults for the
    destinations still unset; switches present on the command line are set. *)
Definition parse_flat (p : Parser) (argv : list string) : Namespace :=
  foldl (apply_action argv) ∅ (p_actions p) ∪ p_defaults p.

Definition parse (p : Parser) (argv : list string) : M Namespace :=
  if bool_decide ("--help" ∈ argv ∨ "-h" ∈ argv) then raise (SystemExit 0)
  else
    match subcommands p, argv with
    | [], _ => ret (parse_flat p argv)
    | _ :: _, [] => ret (<["command" := VNone]> (parse_flat p []))
    | subs, cmd :: rest =>
        match lookup_subcommand cmd subs with
        | Some sp => ret (<["command" := VStr cmd]> (parse_flat sp rest))
        | None => raise (SystemExit 2)
        end
    end.

(** The command implementations: [work] leaves a directory in the temporary
    directory and then reports bad input; [status] returns 3; [handler]
    returns the number of keyword arguments it was given; the others return
    [None]. *)
Definition call_user (name : string) (a : Actuals) : M Value :=
  if bool_decide (name = "work") then
    tempdir <- gets tempfile_tempdir ;;
    os_mkdir (os_path_join (default "." tempdir) "scratch") ;;;
    raise (BadInputError (VStr "no reads in input"))
  else if bool_decide (name = "status") then ret (VInt 3)
  else if bool_decide (name = "handler") then
    match a with
    | Keywords kwargs => ret (VInt (Z.of_nat (size kwargs)))
    | Positional _ => raise (TypeError "handler() takes 0 positional arguments")
    end
  else ret VNone.

Definition signature (name : string) : ArgSpec :=
  if bool_decide (name = "handler") then mkArgSpec ["a"; "c"] None None
  else if bool_decide (name = "variadic") then mkArgSpec ["x"] (Some "rest") None
  else mkArgSpec ["args"] None None.

(** A stand-in for the case mapping of text outside ASCII: it knows the
    dotless i (the bytes 196 and 177 in UTF-8), whose upper case is I. *)
Fixpoint upper_dotless (s : string) : string :=
  match s with
  | EmptyString => EmptyString
  | String a rest =>
      match rest with
      | String b rest' =>
          if (nat_of_ascii a =? 196)%nat && (nat_of_ascii b =? 177)%nat
          then String "I" (upper_dotless rest')
          else String (upper_ascii a) (upper_dotless rest)
      | EmptyString => String (upper_ascii a) EmptyString
      end
  end.

Definition dotless_i : string := String (ascii_of_nat 196) (String (ascii_of_nat 177) "").

Definition E : Collaborators :=
  mkCollaborators "1.25.0" "3.8.10" signature
    (λ name, if bool_decide (name = "work") then Some "Do the work." else None)
    call_user
    (λ _, mkHookImpls None None false)
    parse
    (λ w, bool_decide (is_Some (os_environ w !! "VIRAL_NGS_TMP_DIRKEEP")))
    upper_dotless.

(** What a parser-construction function does to the parser it is given: the
    temporary-directory options are added and the main function attached. *)
Definition with_tmp_dir (p : Parser) : Parser :=
  add_argument
    (mkAction ["--tmp_dirKeep"] "tmp_dirKeep" StoreTrueAction (VBool false) None None None [])
    (add_argument
       (mkAction ["--tmp_dir"] "tmp_dir" StoreAction (VStr "/tmp") None None None []) p).

Definition parser_for (main : string) (doc : option string) (tmp : bool) : Builder :=
  let build p := attach_main E (if tmp then with_tmp_dir p else p) (UserFunc main) false in
  mkBuilder doc (build (ArgumentParser None None true)) build.

Definition commands : Commands :=
  [(Some "work", parser_for "work" (Some "Do the work.") true);
   (Some "tidy", parser_for "tidy" None true);
   (Some "status", parser_for "status" None false)].

Definition world (argv : list string) (environ : gmap string string) : World :=
  mkWorld argv environ ∅ {["/"; "/tmp"]} None ["k3x9ab"; "q7w2cd"] 30 0 [] [].

(** The parser of the script, and three runs of it. *)
Definition root_parser : Parser :=
  match make_parser E commands "Sample script." (world [] ∅) with
  | (Ok p, _) => p
  | (Raise _, _) => ArgumentParser None None false
  end.

Definition example_args : Namespace :=
  {[ "a" := VInt 1; "b" := VInt 2; "c" := VInt 3; "command" := VStr "x" ]}.

Definition run_args (w : World) : Namespace :=
  match startup E commands "Sample script." w with
  | (Ok args, _) => args
  | (Raise _, _) => ∅
  end.

Definition started (w : World) : World := (startup E commands "Sample script." w).2.

Definition w_work : World := world ["/opt/viral-ngs/assembly.py"; "work"; "--tmp_dir"; "/tmp"] ∅.
Definition w_tidy : World := world ["/opt/viral-ngs/assembly.py"; "tidy"; "--tmp_dirKeep"] ∅.
Definition w_bare : World := world ["/opt/viral-ngs/assembly.py"; "--frobnicate"] ∅.
Definition w_docs : World := world ["/opt/viral-ngs/assembly.py"] {[ "READTHEDOCS" := "True" ]}.

Definition attached : Result Parser * World :=
  attach_main E (ArgumentParser None None true) (UserFunc "status") false (world [] ∅).

End Sample.

(** * A second sample script

    Commands that opt into the common arguments through [common_args], among
    them one that removes its temporary directory itself, one that points
    [tempfile.tempdir] elsewhere, and one that is attached with
    [split_args]. *)

Module Sample2.

Definition call_user (name : string) (a : Actuals) : M Value :=
  if bool_decide (name = "purge") then
    tempdir <- gets tempfile_tempdir ;;
    shutil_rmtree tempdir ;;;
    ret VNone
  else if bool_decide (name = "vanish") then
    tempdir <- gets tempfile_tempdir ;;
    shutil_rmtree tempdir ;;;
    raise (BadInputError (VStr "no reads in input"))
  else if bool_decide (name = "rebind") then
    os_mkdir "/tmp/elsewhere" ;;;
    modify (set_tempdir (Some "/tmp/elsewhere")) ;;;
    ret (VInt 7)
  else if bool_decide (name = "count") then
    match a with
    | Keywords kwargs => ret (default VNone (kwargs !! "threads"))
    | Positional _ => raise (TypeError "count() takes 0 positional arguments")
    end
  else Sample.call_user name a.

Definition signature (name : string) : ArgSpec :=
  if bool_decide (name = "count") then mkArgSpec ["threads"] None None
  else Sample.signature name.

Definition E : Collaborators :=
  mkCollaborators "1.25.0" "3.8.10" signature
    (λ name, if bool_decide (name = "count")
             then Some ("Count the reads.  Uses" +:+ nl +:+ "    several threads.")
             else None)
    call_user
    (λ _, mkHookImpls None None false)
    Sample.parse
    (λ w, bool_decide (is_Some (os_environ w !! "VIRAL_NGS_TMP_DIRKEEP")))
    Sample.upper_dotless.

Definition find_tmp_dir (w : World) : string :=
  default "/tmp" (os_environ w !! "TMPDIR").

Definition parser_for (main : string) (arglist : list (string * Value)) (split_args : bool)
    : Builder :=
  let build p :=
    p <- returned (common_args E find_tmp_dir p arglist) ;;
    attach_main E p (UserFunc main) split_args in
  mkBuilder None (build (ArgumentParser None None true)) build.

Definition commands : Commands :=
  [(Some "purge", parser_for "purge" default_arglist false);
   (Some "rebind", parser_for "rebind" default_arglist false);
   (Some "count", parser_for "count" [("threads", VInt 4); ("loglevel", VNone)] true);
   (Some "noisy", parser_for "status" [("loglevel", VStr "EXCEPTION")] false)].

Definition run_args (w : World) : Namespace :=
  match startup E commands "Second sample." w with
  | (Ok args, _) => args
  | (Raise _, _) => ∅
  end.

Definition started (w : World) : World := (startup E commands "Second sample." w).2.


Definition argv_for (cmd : string) : list string :=
  ["/opt/viral-ngs/reads.py"; cmd; "--verbose"].

Definition w_purge : World := Sample.world (argv_for "purge") ∅.
Definition w_count : World := Sample.world (argv_for "count") ∅.

(** The same invocation where [/tmp] does not exist, and one where sphinx is
    loaded. *)
Definition w_no_tmp : World :=
  mkWorld (argv_for "purge") ∅ ∅ {["/"]} None ["k3x9ab"] 30 0 [] [].
Definition w_sphinx : World :=
  mkWorld (argv_for "purge") ∅ {["sphinx"]} {["/"; "/tmp"]} None ["k3x9ab"] 30 0 [] [].

(** The same invocation as a job of both schedulers. *)
Definition w_batch : World :=
  Sample.world (argv_for "purge") {[ "LSB_JOBID" := "4711"; "JOB_ID" := "12" ]}.

Definition fill (s : string) (width : nat) : string := s.

(** What the witnesses below are stated on. *)
Definition count_attached : Result Parser * World :=
  attach_main E (ArgumentParser None None true) (UserFunc "count") true
    Sample.w_work.

Definition count_parser : Parser :=
  match count_attached.1 with Ok p => p | Raise _ => ArgumentParser None None false end.

Definition count_builder : Builder :=
  parser_for "count" [("threads", VInt 4); ("loglevel", VNone)] true.

Definition count_built : Result Parser * World :=
  b_call1 count_builder (ArgumentParser None None true) Sample.w_work.

Definition count_parsed : Result Namespace * World :=
  parse_args E
    (match count_built.1 with Ok p => p | Raise _ => ArgumentParser None None false end)
    (map pystr [VStr "--threads"; VInt 4]) count_built.2.

Definition common_parser : Result Parser * Parser * World :=
  common_args E find_tmp_dir (ArgumentParser None None true)
    default_arglist Sample.w_work.

End Sample2.

(** * Properties *)

Section Properties.

Variable E : Collaborators.

(** ** The monad *)

Lemma bind_ok {A B} (m : M A) (k : A → M B) w a w' :
  m w = (Ok a, w') → bind m k w = k a w'.
Proof. intros H. unfold bind. by rewrite H. Qed.

Lemma bind_raise {A B} (m : M A) (k : A → M B) w e w' :
  m w = (Raise e, w') → bind m k w = (Raise e, w').
Proof. intros H. unfold bind. by rewrite H. Qed.

Lemma bind_ok_inv {A B} (m : M A) (k : A → M B) w b w' :
  bind m k w = (Ok b, w') → ∃ a w1, m w = (Ok a, w1) ∧ k a w1 = (Ok b, w').
Proof.
  unfold bind. destruct (m w) as [[a|e] w1]; [eauto | discriminate].
Qed.

Lemma bind_assoc {A B C} (m : M A) (k : A → M B) (h : B → M C) w :
  bind (bind m k) h w = bind m (λ a, bind (k a) h) w.
Proof. unfold bind. by destruct (m w) as [[a|e] w1]. Qed.


(** ** check_input *)

(** C10: [check_input(condition, error_msg)] raises [BadInputError] carrying
    exactly [error_msg] when [condition] is falsy and returns [None] when it
    is truthy, in both cases leaving the process state as it was; it raises
    if and only if the condition is falsy. *)
Theorem check_input_raises_iff_falsy (condition error_msg : Value) (w : World) :
  check_input condition error_msg w =
    (if truthy condition then Ok VNone else Raise (BadInputError error_msg), w)
  ∧ ((∃ e, (check_input condition error_msg w).1 = Raise e) ↔ truthy condition = false)
  ∧ ((check_input condition error_msg w).1 = Ok VNone ↔ truthy condition = true).
Proof.
  unfold check_input, raise, ret.
  destruct (truthy condition); simpl.
  - split_and!; [done | split; [intros [e He]; discriminate | discriminate] | done].
  - split_and!; [done | split; [done | intros _; eauto] | split; discriminate].
Qed.

(** ** load_cmd_plugins *)

Lemma load_cmd_plugins_eq (w : World) :
  load_cmd_plugins w =
    (Ok tt, match registry w with
            | [] => set_registry [ThisModule; MetadataModule] w
            | _ :: _ => w
            end).
Proof.
  unfold load_cmd_plugins, list_name_plugin, gets, bind.
  destruct w as [argv env mods fs td names lvl hs recs reg]; simpl.
  destruct reg as [|p reg]; [|done].
  unfold register, modify, set_registry; simpl. done.
Qed.

(** C9: [load_cmd_plugins] registers the two built-in plugins only when no
    plugin is registered yet; a call on a registry that already holds a plugin
    changes nothing, and a second call leaves the state that the first call
    produced. *)
Theorem load_cmd_plugins_idempotent (w : World) :
  let w1 := (load_cmd_plugins w).2 in
  load_cmd_plugins w =
    (Ok tt, match registry w with
            | [] => set_registry [ThisModule; MetadataModule] w
            | _ :: _ => w
            end)
  ∧ load_cmd_plugins w1 = (Ok tt, w1)
  ∧ registry (load_cmd_plugins w1).2 = registry w1.
Proof.
  simpl. split; [apply load_cmd_plugins_eq|].
  assert (H : load_cmd_plugins (load_cmd_plugins w).2 = (Ok tt, (load_cmd_plugins w).2)).
  { rewrite (load_cmd_plugins_eq (load_cmd_plugins w).2).
    rewrite (load_cmd_plugins_eq w); simpl.
    destruct (registry w) as [|p reg] eqn:Hreg; simpl; [done|].
    by rewrite Hreg. }
  split; [exact H | by rewrite H].
Qed.

(** ** main_command *)

Lemma main_command_eq (mainfunc : Callable) :
  main_command E mainfunc =
    match as_varargs (getargspec_of E mainfunc), as_keywords (getargspec_of E mainfunc) with
    | None, None =>
        Ok (_main mainfunc (list_to_set (as_args (getargspec_of E mainfunc))))
    | _, _ => Raise (AssertionError "Command impls with *args or **kwargs not supported")
    end.
Proof.
  unfold main_command, flatten.
  destruct (as_varargs _) as [v|], (as_keywords _) as [k|]; by case_bool_decide.
Qed.

(** C4: [main_command] raises its assertion error, and so produces no
    adapter, exactly for the handlers that declare a variadic-positional or a
    variadic-keyword parameter; for all other handlers it returns the
    adapter.  An adapter that exists therefore wraps a handler without
    variadic parameters. *)
Theorem main_command_rejects_variadic_at_construction (mainfunc : Callable) :
  (variadic (getargspec_of E mainfunc) ↔
     main_command E mainfunc =
       Raise (AssertionError "Command impls with *args or **kwargs not supported"))
  ∧ (¬ variadic (getargspec_of E mainfunc) ↔
     ∃ adapter, main_command E mainfunc = Ok adapter).
Proof.
  rewrite main_command_eq. unfold variadic.
  destruct (as_varargs _) as [v|], (as_keywords _) as [k|].
  1-3: split; [split; [done | intros _; (by left) || (by right)]
              | split; [intros H; exfalso; apply H; (by left) || (by right)
                       | intros [a Ha]; discriminate]].
  split; [split; [intros [H|H]; congruence | discriminate]
         | split; [eauto | intros _ [H|H]; congruence]].
Qed.

(** C3: for a handler without variadic parameters [main_command] returns an
    adapter, and the adapter, applied to a namespace, calls the handler with
    the keyword arguments selected from the namespace by the handler's
    declared parameter names: a name is passed, with the value the namespace
    gives it, exactly when it is both a namespace field and a declared
    parameter. *)
Theorem main_command_passes_declared_fields
    (mainfunc : Callable) (args : Namespace) (w : World) :
  ¬ variadic (getargspec_of E mainfunc) →
  let declared := as_args (getargspec_of E mainfunc) in
  let kwargs := dict_subset args (list_to_set declared) in
  ∃ adapter,
    main_command E mainfunc = Ok adapter
    ∧ call E adapter (Positional args) w = call E mainfunc (Keywords kwargs) w
    ∧ (∀ k v, kwargs !! k = Some v ↔ args !! k = Some v ∧ k ∈ declared)
    ∧ dom kwargs = dom args ∩ list_to_set declared.
Proof.
  intros H declared kwargs. rewrite main_command_eq. unfold variadic in H.
  destruct (as_varargs (getargspec_of E mainfunc)) as [v|];
    [exfalso; apply H; by left|].
  destruct (as_keywords (getargspec_of E mainfunc)) as [k|];
    [exfalso; apply H; by right|].
  eexists. split; [reflexivity|]. split; [done|].
  subst kwargs. unfold dict_subset. split.
  - intros k v. rewrite map_lookup_filter_Some. simpl.
    by rewrite elem_of_list_to_set.
  - apply set_eq. intros k. rewrite elem_of_intersection, !elem_of_dom. split.
    + intros [v Hv]. apply map_lookup_filter_Some in Hv as [Hv Hk]. eauto.
    + intros [[v Hv] Hk]. exists v. by apply map_lookup_filter_Some.
Qed.

(** ** The call_command extension point *)

Lemma call_firstresult_single (impl : M Value) (w : World) :
  call_firstresult [impl] w = impl w.
Proof.
  simpl. unfold bind, ret. destruct (impl w) as [[res|e] w']; [|done].
  by destruct res.
Qed.

Lemma hook_cmd_call_cmd_builtin (cmd_main : Callable) (run : Namespace → M Value)
    (args : Namespace) (w : World) :
  only_builtin_call_cmd E (registry w) →
  hook_cmd_call_cmd E cmd_main run args w = run args w.
Proof.
  intros Hreg. unfold hook_cmd_call_cmd, gets, bind, call_cmd_order.
  rewrite Hreg.
  assert (Hlast : is_trylast E ThisModule = true) by done.
  rewrite !filter_cons, !filter_nil, Hlast.
  destruct (decide (true = false)) as [?|_]; [done|].
  destruct (decide (true = true)) as [_|?]; [|done].
  simpl map. rewrite call_firstresult_single. done.
Qed.

Lemma attach_main_func_main (parser : Parser) (cmd_main : Callable) (split_args : bool)
    (w0 : World) (parser' : Parser) (w1 : World) :
  attach_main E parser cmd_main split_args w0 = (Ok parser', w1) →
  ∃ attached,
    (if split_args then main_command E cmd_main else Ok cmd_main) = Ok attached
    ∧ p_defaults parser' !! "func_main" = Some (VFunc (call_main attached)).
Proof.
  unfold attach_main. intros H.
  apply bind_ok_inv in H as (f & wa & Hf & H).
  apply bind_ok_inv in H as (u & wb & _ & H).
  apply bind_ok_inv in H as (p & wc & _ & H).
  injection H as <- <-. exists f. split.
  - destruct split_args.
    + unfold lift in Hf. by injection Hf as -> _.
    + unfold ret in Hf. by injection Hf as -> _.
  - simpl. apply lookup_insert_eq.
Qed.

(** C2: when the only registered implementation of [cmd_call_cmd] is the
    built-in one, running the extension point on a handler and parsed
    arguments does exactly what calling the handler on the arguments does
    (same result or exception, same effect); and the [func_main] callback
    that [attach_main] stores in the parser does what the attached handler
    does (the handler itself, or its adapter when [split_args] is set). *)
Theorem call_command_default_is_handler
    (parser : Parser) (handler : Callable) (split_args : bool) (w0 : World)
    (parser' : Parser) (w1 : World) (args : Namespace) (w : World) :
  attach_main E parser handler split_args w0 = (Ok parser', w1) →
  only_builtin_call_cmd E (registry w) →
  hook_cmd_call_cmd E handler (λ a, call E handler (Positional a)) args w
    = call E handler (Positional args) w
  ∧ ∃ attached func_main,
      (if split_args then main_command E handler else Ok handler) = Ok attached
      ∧ p_defaults parser' !! "func_main" = Some (VFunc func_main)
      ∧ call E func_main (Positional args) w = call E attached (Positional args) w.
Proof.
  intros Hattach Hreg. split.
  - by apply hook_cmd_call_cmd_builtin.
  - destruct (attach_main_func_main _ _ _ _ _ _ Hattach) as (attached & Hatt & Hfm).
    exists attached, (call_main attached). split_and!; [done | done |].
    simpl. by apply hook_cmd_call_cmd_builtin.
Qed.

(** ** make_parser on a single unnamed command *)

Lemma set_action_default_same (k : string) (v : Value) (a : Action) :
  same_but_default (set_action_default k v a) a
  ∧ a_default (set_action_default k v a) = (if bool_decide (a_dest a = k) then v else a_default a).
Proof.
  unfold set_action_default, same_but_default.
  case_bool_decide; by destruct a.
Qed.

Lemma set_defaults_subcommands (k : string) (v : Value) (p : Parser) :
  subcommands (set_defaults k v p) = subcommands p.
Proof.
  unfold subcommands, set_defaults. simpl.
  induction (p_actions p) as [|a l IH]; [done|].
  simpl. rewrite !filter_cons.
  assert (Hs : is_subparsers (set_action_default k v a) = is_subparsers a).
  { unfold set_action_default, is_subparsers. case_bool_decide; by destruct a. }
  assert (Hc : a_choices (set_action_default k v a) = a_choices a).
  { unfold set_action_default. case_bool_decide; by destruct a. }
  rewrite Hs. destruct (decide (is_subparsers a = true)); simpl; by rewrite ?Hc, IH.
Qed.

(** C5: for a command list of one descriptor without a name, [make_parser]
    returns (or fails as) the descriptor's builder called without arguments,
    and the parser it returns is the builder's parser after
    [set_defaults(command='')]: description, usage and the help switch are
    the builder's, the [command] default is the empty string and every other
    parser default is the builder's, the arguments are the builder's in the
    same order, each unchanged except that one whose destination is
    [command] gets the empty string as its default, and no subcommand is
    added. *)
Theorem make_parser_single_unnamed_is_builder_parser
    (cmd_parser : Builder) (description : string) (w : World) :
  make_parser E [(None, cmd_parser)] description w =
    match b_call0 cmd_parser w with
    | (Ok parser, w') => (Ok (set_defaults "command" (VStr "") parser), w')
    | (Raise e, w') => (Raise e, w')
    end
  ∧ ∀ parser,
      let parser' := set_defaults "command" (VStr "") parser in
      p_description parser' = p_description parser
      ∧ p_usage parser' = p_usage parser
      ∧ p_add_help parser' = p_add_help parser
      ∧ p_defaults parser' = <["command" := VStr ""]> (p_defaults parser)
      ∧ Forall2 (λ a' a, same_but_default a' a
                   ∧ a_default a' = if bool_decide (a_dest a = "command")
                                    then VStr "" else a_default a)
          (p_actions parser') (p_actions parser)
      ∧ subcommands parser' = subcommands parser.
Proof.
  split.
  - unfold make_parser, bind, ret. by destruct (b_call0 cmd_parser w) as [[p|e] w'].
  - intros parser parser'. subst parser'. split_and!; try done.
    + simpl. induction (p_actions parser) as [|a l IH]; simpl; constructor; [|done].
      apply set_action_default_same.
    + apply set_defaults_subcommands.
Qed.

(** ** Bare invocations *)

(** C7 (as amended): with no process argument [main_argparse] first parses
    [--help]; with exactly one argument it first parses that argument
    followed by [--help] whenever the command list is not the single unnamed
    descriptor, whether or not the argument names a subcommand (and fails
    with [IndexError] on an empty list); for the single unnamed descriptor,
    for two or more arguments, and after a forced parse that returns instead
    of exiting, the process arguments are parsed as they are. *)
Theorem parse_process_args_forces_help
    (commands : Commands) (parser : Parser) (w : World) :
  let continue := (argv <- gets sys_argv ;; parse_args E parser (tail argv)) in
  parse_process_args E commands parser w =
    match sys_argv w with
    | [_] => (parse_args E parser ["--help"] ;;; continue) w
    | [_; argv1] =>
        if single_unnamed commands then continue w
        else match commands with
             | [] => (Raise IndexError, w)
             | _ :: _ => (parse_args E parser [argv1; "--help"] ;;; continue) w
             end
    | _ => continue w
    end.
Proof.
  intros continue. subst continue. unfold parse_process_args.
  unfold bind at 1. unfold gets at 1.
  destruct (sys_argv w) as [|a0 [|a1 [|a2 rest]]] eqn:Hargv; simpl.
  - unfold bind, ret, gets; simpl. by rewrite Hargv.
  - unfold bind, ret, gets; simpl.
    destruct (parse_args E parser ["--help"] w) as [[ns|e] w']; done.
  - destruct commands as [|[[name|] b] [|c cs]]; simpl;
      unfold bind, ret, raise, gets; simpl; rewrite ?Hargv; try done;
      by destruct (parse_args E parser [a1; "--help"] w) as [[ns|e] w'].
  - unfold bind, ret, gets; simpl. by rewrite Hargv.
Qed.

(** ** Subcommand help *)

Lemma subcommand_help_without_sphinx (doc : option string) (w : World) :
  "sphinx" ∉ sys_modules w →
  subcommand_help doc w =
    (Ok match doc with
        | Some (String c s) => Some (String c s)
        | _ => if truthy_str (os_environ w !! "READTHEDOCS") then Some "   " else None
        end, w).
Proof.
  intros Hs. unfold subcommand_help, bind, gets, ret.
  rewrite (bool_decide_eq_false_2 _ Hs).
  destruct doc as [[|c s]|]; simpl;
    by destruct (truthy_str (os_environ w !! "READTHEDOCS")).
Qed.

Lemma subcommand_help_total (doc : option string) (w : World) :
  ∃ help_str, subcommand_help doc w = (Ok help_str, w).
Proof.
  unfold subcommand_help, bind, gets, ret.
  destruct (_ || _); eauto.
Qed.

(** One pass of the loop that goes through: the name is not taken yet, and
    the parser of the subcommand is what its parser-construction function
    makes of a fresh parser. *)
Lemma add_subcommand_ok_inv
    (added : list (option string * option string * Parser)) (name : option string)
    (b : Builder) (w : World) (entry : option string * option string * Parser) (w' : World) :
  add_subcommand added (name, b) w = (Ok entry, w') →
  ∃ help_str p,
    subcommand_help (b_doc b) w = (Ok help_str, w)
    ∧ (name ∉ map (λ e : option string * option string * Parser, e.1.1) added)
    ∧ b_call1 b (ArgumentParser None None true) w = (Ok p, w')
    ∧ entry = (name, help_str, p).
Proof.
  unfold add_subcommand. intros H.
  destruct (subcommand_help_total (b_doc b) w) as [h Hh].
  rewrite (bind_ok _ _ _ _ _ Hh) in H.
  unfold add_parser, lift in H. unfold bind at 1 in H.
  case_bool_decide as Hin; [discriminate|].
  apply bind_ok_inv in H as (p & wb & Hp & H).
  injection H as <- <-. by exists h, p.
Qed.

Lemma add_subcommands_help (commands : Commands) :
  ∀ added w entries w',
    Forall (λ cmd, keeps_docs_mode cmd.2) commands →
    "sphinx" ∉ sys_modules w →
    add_subcommands added commands w = (Ok entries, w') →
    ∃ new, entries = added ++ new
           ∧ Forall2 (help_as_documented (os_environ w)) commands new.
Proof.
  induction commands as [|[name b] cs IH]; intros added w entries w' Hk Hs H.
  - injection H as <- <-. exists []. split; [by rewrite app_nil_r | constructor].
  - simpl in H. apply Forall_cons in Hk as [Hb Hk].
    apply bind_ok_inv in H as (e & w1 & He & H).
    apply add_subcommand_ok_inv in He as (h & p & Hh & _ & Hp & ->).
    rewrite subcommand_help_without_sphinx in Hh by done.
    injection Hh as <-.
    destruct (Hb _ _ _ _ Hp) as [Henv Hmod].
    apply IH in H as (new & -> & Hnew); [|done|by rewrite Hmod].
    eexists (_ :: new). split; [by rewrite <- app_assoc|].
    constructor; [by split|]. by rewrite <- Henv.
Qed.

Lemma make_parser_multi (commands : Commands) (description : string) (w : World) :
  single_unnamed commands = false →
  make_parser E commands description w =
    (subparsers <- add_subcommands [] commands ;;
     ret (add_argument
            (mkAction [] "command" SubParsersAction VNone None (Some cursor_up)
               (Some "subcommands") subparsers)
            (add_argument
               (mkAction ["--version"; "-V"] "version" (VersionAction (version E))
                  (VStr SUPPRESS) (Some SUPPRESS) None None [])
               (add_argument
                  (mkAction ["--help"; "-h"] "help" SubcommandHelpAction (VStr SUPPRESS)
                     (Some SUPPRESS) None None [])
                  (ArgumentParser (Some description) (Some "%(prog)s subcommand") false))))) w.
Proof.
  intros Hm. by destruct commands as [|[[name|] b] [|c cs]].
Qed.

(** C8 (as amended): in [make_parser] for a list other than the single
    unnamed descriptor, when sphinx is not loaded and the parser-construction
    functions leave the environment alone, the subcommands of the parser are
    the commands of the list, in order and under their names, and the help of
    each is the documentation string of its parser-construction function when
    that is present and not empty; the string of three blanks takes its place
    exactly when the documentation is absent or empty and [READTHEDOCS] has a
    non-empty value, and no help is given when neither holds. *)
Theorem make_parser_subcommand_help
    (commands : Commands) (description : string) (w : World) (parser : Parser) (w' : World) :
  single_unnamed commands = false →
  Forall (λ cmd, keeps_docs_mode cmd.2) commands →
  "sphinx" ∉ sys_modules w →
  make_parser E commands description w = (Ok parser, w') →
  Forall2 (help_as_documented (os_environ w)) commands (subcommands parser).
Proof.
  intros Hm Hk Hs H. rewrite make_parser_multi in H by done.
  apply bind_ok_inv in H as (entries & w1 & He & H).
  injection H as <- <-.
  unfold subcommands, add_argument, ArgumentParser. simpl.
  rewrite app_nil_r.
  by destruct (add_subcommands_help _ _ _ _ _ Hk Hs He) as (new & -> & Hnew).
Qed.

(** ** The scoped temporary directory *)





Lemma getattr_ok (args : Namespace) (name : string) (w : World) (v : Value) (w' : World) :
  getattr args name w = (Ok v, w') → args !! name = Some v ∧ w' = w.
Proof.
  unfold getattr. destruct (args !! name); [|discriminate].
  intros H. by injection H as <- <-.
Qed.





(** The directory is set up whenever the base directory is given as a
    string, the first candidate name is free and the place for it exists. *)
Lemma make_scoped_tmp_dir_succeeds (args : Namespace) (w : World)
    (argv0 : string) (rest : list string) (command : Value) (base name : string)
    (names : list string) :
  sys_argv w = argv0 :: rest →
  args !! "command" = Some command →
  args !! "tmp_dir" = Some (VStr base) →
  name_candidates w = name :: names →
  let path :=
    os_path_join base
      ((proposed_dir (before_last_dot (os_path_basename argv0)) command (os_environ w)
          +:+ "-") +:+ name) in
  path ∉ fs_dirs w →
  parent_dir path ∈ fs_dirs w →
  ∃ w', make_scoped_tmp_dir args w = (Ok tt, w')
        ∧ tempfile_tempdir w' = Some path ∧ path ∈ fs_dirs w'.
Proof.
  intros Hargv Hcommand Htmp Hnames path Hnew Hpar.
  unfold make_scoped_tmp_dir, script_name, getattr, tempfile_mkdtemp, bind, gets, ret.
  rewrite Hargv, Hcommand, Htmp, Hnames. simpl mkdtemp_loop.
  unfold os_mkdir. simpl fs_dirs. fold path.
  rewrite (bool_decide_eq_false_2 _ Hnew), (bool_decide_eq_true_2 _ Hpar).
  eexists. split; [reflexivity|]. simpl. split; [done|].
  apply elem_of_union_l. by apply elem_of_singleton.
Qed.

(** ** main_argparse *)

Lemma main_argparse_after_startup
    (commands : Commands) (description : string) (w0 : World) (args : Namespace) (w1 : World) :
  startup E commands description w0 = (Ok args, w1) →
  main_argparse E commands description w0 =
    match run_command E args w1 with
    | (r, w2) => (exit_status r, w2)
    end.
Proof.
  unfold startup, main_argparse. intros H.
  apply bind_ok_inv in H as (parser & wa & Hparser & H).
  apply bind_ok_inv in H as (args' & wb & Hargs & H).
  apply bind_ok_inv in H as ([] & wc & Hlog & H).
  injection H as <- <-.
  rewrite (bind_ok _ _ _ _ _ Hparser), (bind_ok _ _ _ _ _ Hargs), (bind_ok _ _ _ _ _ Hlog).
  unfold bind, ret. by destruct (run_command E args' wc) as [[v|e] w2].
Qed.




(** When the directory cannot be set up, the command is not run: the error
    is the outcome. *)
Lemma main_argparse_tmp_dir_not_created
    (commands : Commands) (description : string) (w0 : World) (args : Namespace)
    (w1 : World) (e : Exn) (w2 : World) :
  startup E commands description w0 = (Ok args, w1) →
  hasattr args "tmp_dir" = true →
  make_scoped_tmp_dir args w1 = (Raise e, w2) →
  main_argparse E commands description w0 = (Raise e, w2).
Proof.
  intros Hstart Htmp Hmk.
  rewrite (main_argparse_after_startup _ _ _ _ _ Hstart).
  unfold run_command. rewrite Htmp. by rewrite (bind_raise _ _ _ _ _ Hmk).
Qed.



(** Without [cmd_configure_parser] implementations, [attach_main] leaves
    the environment alone. *)
Lemma configure_all_without_impls (ps : list Plugin) (parser : Parser) (w : World) :
  (∀ p, impl_configure_parser (impls_of E p) = None) →
  configure_all E ps parser w = (Ok parser, w).
Proof.
  intros Hnone. induction ps as [|p ps IH]; [done|].
  simpl. rewrite Hnone. unfold bind, ret. exact IH.
Qed.

Lemma attach_main_keeps_environ (parser : Parser) (cmd_main : Callable) (split_args : bool)
    (w : World) (r : Result Parser) (w' : World) :
  (∀ p, impl_configure_parser (impls_of E p) = None) →
  attach_main E parser cmd_main split_args w = (r, w') →
  os_environ w' = os_environ w ∧ sys_modules w' = sys_modules w.
Proof.
  intros Hnone. unfold attach_main.
  assert (Hrest : ∀ f,
    (load_cmd_plugins ;;;
     parser0 <- hook_cmd_configure_parser E parser ;;
     ret (set_defaults "func_main" (VFunc (call_main f))
            (set_description (doc_of E f) parser0))) w = (r, w') →
    os_environ w' = os_environ w ∧ sys_modules w' = sys_modules w).
  { intros f. unfold bind at 1. rewrite load_cmd_plugins_eq.
    unfold hook_cmd_configure_parser, bind, gets, ret.
    rewrite configure_all_without_impls by done.
    intros H. injection H as _ <-. by destruct (registry w). }
  destruct split_args.
  - unfold bind at 1, lift. destruct (main_command E cmd_main) as [f|e].
    + apply Hrest.
    + intros H. by injection H as _ <-.
  - unfold bind at 1, ret at 1. apply Hrest.
Qed.

End Properties.

(** * The sample script, run *)

(** ** Examples *)

(** The example of the specification: a handler declaring [a] and [c], called
    through its adapter on a namespace with [a], [b], [c] and [command],
    receives [a=1, c=3]. *)
Example main_command_example :
  main_command Sample.E (UserFunc "handler")
    = Ok (_main (UserFunc "handler") (list_to_set ["a"; "c"]))
  ∧ dict_subset Sample.example_args (list_to_set ["a"; "c"])
    = {[ "a" := VInt 1; "c" := VInt 3 ]}
  ∧ call Sample.E (_main (UserFunc "handler") (list_to_set ["a"; "c"]))
      (Positional Sample.example_args) Sample.w_work
    = (Ok (VInt 2), Sample.w_work).
Proof. split_and!; vm_compute; reflexivity. Qed.

Example main_command_variadic_example :
  main_command Sample.E (UserFunc "variadic")
    = Raise (AssertionError "Command impls with *args or **kwargs not supported").
Proof. vm_compute. reflexivity. Qed.

(** A command that raises: the scoped directory and the directory the command
    left in it are gone, and the exception is the outcome. *)
Example main_argparse_work_example :
  let '(r, w) := main_argparse Sample.E Sample.commands "Sample script." Sample.w_work in
  r = Raise (BadInputError (VStr "no reads in input"))
  ∧ tempfile_tempdir w = Some "/tmp/tmp-assembly-work-k3x9ab"
  ∧ elements (fs_dirs w) = elements (fs_dirs Sample.w_work).
Proof. vm_compute. done. Qed.

(** A command that returns nothing, with [--tmp_dirKeep]: exit status 0, the
    directory stays. *)
Example main_argparse_tidy_example :
  let '(r, w) := main_argparse Sample.E Sample.commands "Sample script." Sample.w_tidy in
  r = Ok (VInt 0)
  ∧ bool_decide ("/tmp/tmp-assembly-tidy-k3x9ab" ∈ fs_dirs w) = true
  ∧ last (log_records w)
    = Some (kept_record (VStr "tidy") "/tmp/tmp-assembly-tidy-k3x9ab").
Proof. vm_compute. done. Qed.

(** A command that returns a value, without a scoped directory: the value is
    the exit status. *)
Example main_argparse_status_example :
  let w := Sample.world ["/opt/viral-ngs/assembly.py"; "status"; "--quick"] ∅ in
  (main_argparse Sample.E Sample.commands "Sample script." w).1 = Ok (VInt 3)
  ∧ fs_dirs (main_argparse Sample.E Sample.commands "Sample script." w).2 = fs_dirs w.
Proof. vm_compute. done. Qed.

(** A bare invocation shows the help and exits. *)
Example main_argparse_bare_example :
  let w := Sample.world ["/opt/viral-ngs/assembly.py"] ∅ in
  (main_argparse Sample.E Sample.commands "Sample script." w).1 = Raise (SystemExit 0).
Proof. vm_compute. done. Qed.

(** ** Instances of the theorems *)


Lemma call_command_default_is_handler_witness :
  let parser' := match Sample.attached.1 with Ok p => p | Raise _ => ArgumentParser None None false end in
  let w1 := Sample.attached.2 in
  hook_cmd_call_cmd Sample.E (UserFunc "status")
      (λ a, call Sample.E (UserFunc "status") (Positional a)) ∅ w1
    = call Sample.E (UserFunc "status") (Positional ∅) w1
  ∧ ∃ attached func_main,
      Ok (UserFunc "status") = Ok attached
      ∧ p_defaults parser' !! "func_main" = Some (VFunc func_main)
      ∧ call Sample.E func_main (Positional ∅) w1
        = call Sample.E attached (Positional ∅) w1.
Proof.
  intros parser' w1.
  apply (call_command_default_is_handler Sample.E (ArgumentParser None None true)
           (UserFunc "status") false (Sample.world [] ∅) parser' w1 ∅ w1).
  - vm_compute. reflexivity.
  - vm_compute. reflexivity.
Defined.

Lemma main_command_passes_declared_fields_witness :
  let kwargs := dict_subset Sample.example_args (list_to_set ["a"; "c"]) in
  ∃ adapter,
    main_command Sample.E (UserFunc "handler") = Ok adapter
    ∧ call Sample.E adapter (Positional Sample.example_args) Sample.w_work
      = call Sample.E (UserFunc "handler") (Keywords kwargs) Sample.w_work
    ∧ (∀ k v, kwargs !! k = Some v ↔ Sample.example_args !! k = Some v ∧ k ∈ ["a"; "c"])
    ∧ dom kwargs = dom Sample.example_args ∩ list_to_set ["a"; "c"].
Proof.
  intros kwargs.
  apply (main_command_passes_declared_fields Sample.E (UserFunc "handler")
           Sample.example_args Sample.w_work).
  unfold variadic. vm_compute. intros [H|H]; apply H; reflexivity.
Defined.


Lemma sample_builders_keep_docs_mode :
  Forall (λ cmd : option string * Builder, keeps_docs_mode cmd.2) Sample.commands.
Proof.
  assert (Hnone : ∀ p, impl_configure_parser (impls_of Sample.E p) = None)
    by (by intros []).
  unfold Sample.commands.
  repeat (apply Forall_cons; split; [|]); [..|done];
    unfold keeps_docs_mode; simpl; intros p w r w' H;
    exact (attach_main_keeps_environ Sample.E _ _ _ _ _ _ Hnone H).
Qed.

Lemma make_parser_subcommand_help_witness :
  Forall2 (help_as_documented {[ "READTHEDOCS" := "True" ]}) Sample.commands
    (match make_parser Sample.E Sample.commands "Sample script." Sample.w_docs with
     | (Ok p, _) => subcommands p
     | (Raise _, _) => []
     end).
Proof.
  apply (make_parser_subcommand_help Sample.E Sample.commands "Sample script." Sample.w_docs
           _ (make_parser Sample.E Sample.commands "Sample script." Sample.w_docs).2).
  - reflexivity.
  - exact sample_builders_keep_docs_mode.
  - apply not_elem_of_empty.
  - vm_compute. reflexivity.
Defined.

(** ** Where the specification's reading differs *)



(** C7, as stated: one argument that names no subcommand is still parsed
    with [--help] appended, so that the help is shown (exit status 0) where a
    normal parse of the argument would end with a usage error. *)
Lemma parse_process_args_counterexample :
  names_subcommand Sample.commands "--frobnicate" = false
  ∧ (parse_process_args Sample.E Sample.commands Sample.root_parser Sample.w_bare).1
    = Raise (SystemExit 0)
  ∧ (spec_parse_process_args Sample.E Sample.commands Sample.root_parser Sample.w_bare).1
    = Raise (SystemExit 2)
  ∧ parse_process_args Sample.E Sample.commands Sample.root_parser Sample.w_bare
    ≠ spec_parse_process_args Sample.E Sample.commands Sample.root_parser Sample.w_bare.
Proof.
  split_and!; [vm_compute; reflexivity .. |].
  intros H. apply (f_equal fst) in H. vm_compute in H. discriminate.
Qed.

(** C8, as stated: for a parser-construction function without documentation
    and with [READTHEDOCS] set, the help is the string of three blanks, not
    the empty string. *)
Lemma subcommand_help_counterexample :
  let helps :=
    match make_parser Sample.E Sample.commands "Sample script." Sample.w_docs with
    | (Ok p, _) => map (λ e, e.1.2) (subcommands p)
    | (Raise _, _) => []
    end in
  helps = [Some "Do the work."; Some "   "; Some "   "]
  ∧ map (λ cmd, spec_subcommand_help (b_doc cmd.2) Sample.w_docs) Sample.commands
    = [Some "Do the work."; Some ""; Some ""]
  ∧ helps ≠ map (λ cmd, spec_subcommand_help (b_doc cmd.2) Sample.w_docs) Sample.commands.
Proof.
  split_and!; [vm_compute; reflexivity .. |].
  intros H. vm_compute in H. discriminate.
Qed.

(** * Further properties of the module *)

Section Further.

Variable E : Collaborators.

(** ** Strings *)

Lemma append_nil_r (s : string) : s +:+ "" = s.
Proof. induction s as [|c s IH]; [done|]. change (String c (s +:+ "") = String c s). by f_equal. Qed.

Lemma append_assoc (a b c : string) : (a +:+ b) +:+ c = a +:+ (b +:+ c).
Proof.
  induction a as [|x a IH]; [done|].
  change (String x ((a +:+ b) +:+ c) = String x (a +:+ (b +:+ c))). by f_equal.
Qed.

Lemma char_in_app (c : ascii) (a b : string) :
  char_in c (a +:+ b) = char_in c a || char_in c b.
Proof.
  induction a as [|x a IH]; [done|].
  change (Ascii.eqb x c || char_in c (a +:+ b)
          = Ascii.eqb x c || char_in c a || char_in c b).
  rewrite IH. by destruct (Ascii.eqb x c).
Qed.

Lemma rsplit1_Some (sep : ascii) (s a b : string) :
  rsplit1 sep s = Some (a, b) → s = a +:+ String sep b ∧ char_in sep b = false.
Proof.
  revert a b. induction s as [|c s IH]; intros a b H; simpl in H; [discriminate|].
  destruct (rsplit1 sep s) as [[a' b']|] eqn:Hr.
  - injection H as <- <-. destruct (IH _ _ eq_refl) as [-> Hb]. done.
  - destruct (Ascii.eqb c sep) eqn:Hc; [|discriminate].
    injection H as <- <-. apply Ascii.eqb_eq in Hc as ->. split; [done|].
    clear IH. induction s as [|d s IH]; simpl in *; [done|].
    destruct (rsplit1 sep s) as [[a' b']|]; [discriminate|].
    destruct (Ascii.eqb d sep); [discriminate|]. by apply IH.
Qed.

Lemma rsplit1_None (sep : ascii) (s : string) :
  rsplit1 sep s = None → char_in sep s = false.
Proof.
  induction s as [|c s IH]; simpl; [done|].
  destruct (rsplit1 sep s) as [[a b]|]; [discriminate|].
  destruct (Ascii.eqb c sep); [discriminate|]. intros _. by apply IH.
Qed.

(** X1: [script_name()] fails with [IndexError] exactly when [sys.argv] is
    empty and never changes the process state; otherwise its result is the
    last path component of [sys.argv[0]] up to its last dot.  The component
    is what follows the last slash of [sys.argv[0]] (all of it when there is
    no slash), so it contains no slash; it is the result itself when it has
    no dot, and the result followed by a dot and a dot-free extension when it
    has one. *)
Theorem script_name_is_stem_of_basename (w : World) :
  match sys_argv w with
  | [] => script_name w = (Raise IndexError, w)
  | argv0 :: _ =>
      ∃ name base,
        script_name w = (Ok name, w)
        ∧ char_in "/" base = false
        ∧ char_in "/" name = false
        ∧ (argv0 = base ∨ ∃ dir, argv0 = dir +:+ "/" +:+ base)
        ∧ ((base = name ∧ char_in "." base = false)
           ∨ ∃ ext, base = name +:+ "." +:+ ext ∧ char_in "." ext = false)
  end.
Proof.
  unfold script_name, bind, gets, ret, raise.
  destruct (sys_argv w) as [|argv0 rest]; [done|].
  exists (before_last_dot (os_path_basename argv0)), (os_path_basename argv0).
  assert (Hbase : char_in "/" (os_path_basename argv0) = false
                  ∧ (argv0 = os_path_basename argv0
                     ∨ ∃ dir, argv0 = dir +:+ "/" +:+ os_path_basename argv0)).
  { unfold os_path_basename. destruct (rsplit1 "/" argv0) as [[a b]|] eqn:Hr.
    - apply rsplit1_Some in Hr as [-> Hb]. split; [done|]. right. by exists a.
    - apply rsplit1_None in Hr. split; [done | by left]. }
  destruct Hbase as [Hslash Hsplit].
  unfold before_last_dot.
  destruct (rsplit1 "." (os_path_basename argv0)) as [[stem ext]|] eqn:Hr.
  - apply rsplit1_Some in Hr as [Hr Hext]. split_and!; [done | done | | done |].
    + rewrite Hr, char_in_app in Hslash. by apply orb_false_iff in Hslash as [? _].
    + right. by exists ext.
  - apply rsplit1_None in Hr. split_and!; [done | done | done | done |]. by left.
Qed.

(** ** setup_logger *)

Lemma logging_attrs_other (name : string) :
  level_named name = None → name ≠ "NOTSET" → name ≠ "BASIC_FORMAT" →
  logging_attrs !! name = None.
Proof.
  unfold level_named. repeat case_bool_decide; try discriminate. intros _ ? ?.
  unfold logging_attrs. simpl. rewrite !lookup_insert_ne by done. apply lookup_empty.
Qed.

Lemma logging_attrs_level (name : string) (n : Z) :
  level_named name = Some n → logging_attrs !! name = Some (VInt n) ∧ n ≠ 0%Z.
Proof.
  unfold level_named.
  repeat (case_bool_decide as Hn;
          [intros H; injection H as <-; rewrite Hn; split; [vm_compute; reflexivity | lia]
          |clear Hn]).
  discriminate.
Qed.

Lemma setup_logger_eq (s : string) (w : World) :
  setup_logger E (VStr s) w =
    match level_named (str_upper E s) with
    | Some n => (Ok tt, set_logger n (S (log_handlers w)) w)
    | None =>
        (Raise (if bool_decide (str_upper E s = "BASIC_FORMAT") then ValueError "Unknown level"
                else AssertionError ("unrecognized log level: " +:+ s)), w)
    end.
Proof.
  unfold setup_logger, bind, ret. simpl.
  destruct (level_named (str_upper E s)) as [n|] eqn:Hl.
  - apply logging_attrs_level in Hl as [-> Hn]. simpl.
    destruct (Z.eqb_spec n 0) as [?|_]; [done|]. done.
  - case_bool_decide as Hb.
    + rewrite Hb. by vm_compute.
    + destruct (decide (str_upper E s = "NOTSET")) as [Hn|Hn].
      * rewrite Hn. by vm_compute.
      * by rewrite logging_attrs_other.
Qed.

(** X2: [setup_logger(log_level)] on a string succeeds exactly when the
    string in upper case is one of CRITICAL, FATAL, ERROR, WARNING, WARN, INFO
    and DEBUG; it then sets the root logger to that level and adds one more
    handler, and changes nothing else.  Every other string, NOTSET included,
    raises and leaves the logger and the rest of the state as they were.
    Upper case is that of [str.upper]: on ASCII text the letters a to z
    become A to Z, and on other text it is Unicode's case mapping, under
    which a spelling outside ASCII can be an accepted level name too. *)
Theorem setup_logger_accepts_level_names (s : string) (w : World) :
  (is_ascii s = true → str_upper E s = upper s)
  ∧ (is_ascii s = false → str_upper E s = unicode_upper E s)
  ∧ match level_named (str_upper E s) with
    | Some n => setup_logger E (VStr s) w = (Ok tt, set_logger n (S (log_handlers w)) w)
    | None => ∃ e, setup_logger E (VStr s) w = (Raise e, w)
    end.
Proof.
  split_and!.
  - intros Ha. unfold str_upper. by rewrite Ha.
  - intros Ha. unfold str_upper. by rewrite Ha.
  - rewrite setup_logger_eq. destruct (level_named (str_upper E s)); eauto.
Qed.

(** ** The start of main_argparse *)

Lemma log_invocation_ok_inv (args : Namespace) (w w' : World) :
  log_invocation E args w = (Ok tt, w') →
  ∃ s n argv0 argv1,
    (if negb (hasattr args "loglevel") then VStr "DEBUG"
     else default VNone (args !! "loglevel")) = VStr s
    ∧ level_named (str_upper E s) = Some n
    ∧ sys_argv w !! 0%nat = Some argv0 ∧ sys_argv w !! 1%nat = Some argv1
    ∧ w' = add_log_record
             (invocation_record argv0 argv1
                (filter (λ kv, kv.1 ∉ ["command"; "func_main"]) (map_to_list args)))
             (add_log_record (version_record E) (set_logger n (S (log_handlers w)) w)).
Proof.
  unfold log_invocation. intros H.
  apply bind_ok_inv in H as ([] & wa & Hsetup & H).
  destruct (if negb (hasattr args "loglevel") then VStr "DEBUG"
            else default VNone (args !! "loglevel")) as [| | |s|] eqn:Hlv;
    try discriminate.
  rewrite setup_logger_eq in Hsetup.
  destruct (level_named (str_upper E s)) as [n|] eqn:Hn; [|discriminate].
  injection Hsetup as <-.
  apply bind_ok_inv in H as ([] & wb & Hinfo & H).
  unfold log_info, log_call, modify in Hinfo. injection Hinfo as <-.
  apply bind_ok_inv in H as (argv & wc & Hargv & H).
  unfold gets in Hargv. injection Hargv as <- <-.
  simpl sys_argv in H.
  destruct (sys_argv w !! 0%nat) as [argv0|] eqn:H0; [|discriminate].
  destruct (sys_argv w !! 1%nat) as [argv1|] eqn:H1; [|discriminate].
  unfold log_info, log_call, modify in H. injection H as <-.
  exists s, n, argv0, argv1. done.
Qed.

(** X3: when the logging step of [main_argparse] (lines 219-222) goes
    through, the root logger is at DEBUG if the parsed arguments have no
    [loglevel] field, and otherwise at the level that the field names, the
    field being a string whose upper case (that of [str.upper], Unicode's
    case mapping outside ASCII) is an accepted level name; exactly one
    handler has been added. *)
Theorem log_invocation_sets_level (args : Namespace) (w w' : World) :
  log_invocation E args w = (Ok tt, w') →
  match args !! "loglevel" with
  | None => log_level w' = 10%Z
  | Some v => ∃ s, v = VStr s ∧ level_named (str_upper E s) = Some (log_level w')
  end
  ∧ log_handlers w' = S (log_handlers w).
Proof.
  intros H. apply log_invocation_ok_inv in H as (s & n & a0 & a1 & Hlv & Hn & _ & _ & ->).
  simpl. split; [|done]. unfold hasattr in Hlv.
  destruct (args !! "loglevel") as [v|].
  - rewrite bool_decide_eq_true_2 in Hlv by eauto. simpl in Hlv. eauto.
  - rewrite bool_decide_eq_false_2 in Hlv by (by intros [? ?]). simpl in Hlv.
    injection Hlv as <-. vm_compute in Hn. by injection Hn as <-.
Qed.

(** X4: when the logging step goes through, [sys.argv] has at least two
    entries and exactly two records have been logged at INFO level: the
    versions, and the invocation with [sys.argv[0]], [sys.argv[1]] and the
    fields of the parsed arguments.  A field and its value are listed exactly
    when the field is in the namespace and is neither [command] nor
    [func_main]. *)
Theorem log_invocation_records (args : Namespace) (w w' : World) :
  log_invocation E args w = (Ok tt, w') →
  ∃ argv0 argv1 items,
    sys_argv w !! 0%nat = Some argv0 ∧ sys_argv w !! 1%nat = Some argv1
    ∧ log_records w' = log_records w ++ [version_record E; invocation_record argv0 argv1 items]
    ∧ ∀ k v, (k, v) ∈ items ↔ args !! k = Some v ∧ k ≠ "command" ∧ k ≠ "func_main".
Proof.
  intros H. apply log_invocation_ok_inv in H as (s & n & a0 & a1 & _ & _ & H0 & H1 & ->).
  eexists a0, a1, _. split_and!; [done | done | |].
  - simpl. by rewrite <- app_assoc.
  - intros k v. rewrite list_elem_of_filter, elem_of_map_to_list. simpl.
    rewrite !not_elem_of_cons. split.
    + intros [(? & ? & _) ?]. done.
    + intros (? & ? & ?). split_and!; try done. apply not_elem_of_nil.
Qed.


(** ** The name of the scoped directory *)

(** The job of a scheduler in the proposed name: [LSB_JOBID] takes precedence
    over [JOB_ID], and the index is that of [LSB_JOBINDEX], or 0 without it,
    for either of them. *)
Lemma proposed_dir_job_precedence
    (name : string) (command : Value) (environ : gmap string string) :
  proposed_dir name command environ =
    match environ !! "LSB_JOBID", environ !! "JOB_ID" with
    | Some job, _ | None, Some job =>
        "tmp-" +:+ name +:+ "-" +:+ pystr command +:+ "-" +:+ job +:+ "-"
          +:+ default "0" (environ !! "LSB_JOBINDEX")
    | None, None => "tmp-" +:+ name +:+ "-" +:+ pystr command
    end.
Proof.
  unfold proposed_dir. simpl.
  destruct (environ !! "LSB_JOBID") as [lsb|] eqn:Hlsb.
  - rewrite bool_decide_eq_true_2 by eauto. by rewrite Hlsb.
  - rewrite bool_decide_eq_false_2 by (by intros [? ?]).
    destruct (environ !! "JOB_ID") as [job|] eqn:Hjob.
    + rewrite bool_decide_eq_true_2 by eauto. by rewrite Hjob.
    + by rewrite bool_decide_eq_false_2 by (by intros [? ?]).
Qed.

Lemma mkdtemp_loop_name (dir prefix : string) (names : list string) :
  ∀ tries w d w',
    mkdtemp_loop dir prefix names tries w = (Ok d, w') →
    ∃ name, name ∈ names ∧ d = os_path_join dir (prefix +:+ name).
Proof.
  induction names as [|name names IH]; intros tries w d w' H; simpl in H.
  - discriminate.
  - destruct (N.eqb tries 0); [discriminate|].
    destruct (os_mkdir _ (set_name_candidates names w)) as [[[]|e] w1] eqn:Hmk.
    + injection H as <- <-. exists name. split; [apply list_elem_of_here | done].
    + destruct e; try discriminate.
      apply IH in H as (n & Hn & ->). exists n. split; [by apply list_elem_of_further | done].
Qed.

(** X6: the scoped directory that [main_argparse] sets up below a base
    directory given as a string is named after the script, the command and,
    under a scheduler, the job: its path is the base joined with
    [tmp-<script>-<command>-<random>], or with
    [tmp-<script>-<command>-<job>-<index>-<random>] when [LSB_JOBID] or
    [JOB_ID] is set, where [LSB_JOBID] takes precedence and the index is
    [LSB_JOBINDEX], or 0 without it, for either of them. *)
Theorem make_scoped_tmp_dir_names_directory
    (args : Namespace) (w1 w2 : World) (base : string) :
  make_scoped_tmp_dir args w1 = (Ok tt, w2) →
  args !! "tmp_dir" = Some (VStr base) →
  ∃ argv0 command random,
    head (sys_argv w1) = Some argv0
    ∧ args !! "command" = Some command
    ∧ random ∈ name_candidates w1
    ∧ let script := before_last_dot (os_path_basename argv0) in
      let proposed :=
        match os_environ w1 !! "LSB_JOBID", os_environ w1 !! "JOB_ID" with
        | Some job, _ | None, Some job =>
            "tmp-" +:+ script +:+ "-" +:+ pystr command +:+ "-" +:+ job +:+ "-"
              +:+ default "0" (os_environ w1 !! "LSB_JOBINDEX")
        | None, None => "tmp-" +:+ script +:+ "-" +:+ pystr command
        end in
      tempfile_tempdir w2 = Some (os_path_join base ((proposed +:+ "-") +:+ random)).
Proof.
  unfold make_scoped_tmp_dir. intros H Hbase.
  apply bind_ok_inv in H as (name & wa & Hname & H).
  unfold script_name, bind, gets in Hname.
  destruct (sys_argv w1) as [|argv0 rest] eqn:Hargv; [discriminate|].
  injection Hname as <- <-.
  apply bind_ok_inv in H as (command & wb & Hcommand & H).
  apply getattr_ok in Hcommand as [Hcommand ->].
  apply bind_ok_inv in H as (environ & wc & Henv & H). injection Henv as <- <-.
  apply bind_ok_inv in H as (tmp_dir & wd & Htmp & H).
  apply getattr_ok in Htmp as [Htmp ->].
  rewrite Hbase in Htmp. injection Htmp as <-.
  apply bind_ok_inv in H as (d & we & Hd & H).
  unfold tempfile_mkdtemp, bind, ret, gets in Hd.
  apply mkdtemp_loop_name in Hd as (random & Hrandom & ->).
  unfold bind, modify, gets, log_debug, log_call in H. simpl in H.
  injection H as <-. exists argv0, command, random.
  split_and!; [done | done | done |]. simpl.
  by rewrite <- proposed_dir_job_precedence.
Qed.

(** ** What the clean-up removes *)

Lemma run_command_scoped (args : Namespace) (w1 w2 : World) (r : Result Value) (w3 : World) :
  hasattr args "tmp_dir" = true →
  make_scoped_tmp_dir args w1 = (Ok tt, w2) →
  call_func_main E args w2 = (r, w3) →
  run_command E args w1 =
    match finish_tmp_dir E args w3 with
    | (Ok _, w4) => (r, w4)
    | (Raise e, w4) => (Raise e, w4)
    end.
Proof.
  intros Htmp Hmk Hcall. unfold run_command. rewrite Htmp, (bind_ok _ _ _ _ _ Hmk).
  unfold try_finally. by rewrite Hcall.
Qed.


(** X8: when the command has itself removed the directory that
    [tempfile.tempdir] names, and nothing asks to keep it, the clean-up fails:
    [main_argparse] raises [FileNotFoundError] in place of the command's
    outcome, whether the command returned or raised. *)
Theorem main_argparse_cleanup_of_missing_dir
    (commands : Commands) (description : string) (w0 : World) (args : Namespace)
    (w1 w2 : World) (r : Result Value) (w3 : World) (d : string) :
  startup E commands description w0 = (Ok args, w1) →
  hasattr args "tmp_dir" = true →
  make_scoped_tmp_dir args w1 = (Ok tt, w2) →
  call_func_main E args w2 = (r, w3) →
  keep_requested E args w3 = false →
  tempfile_tempdir w3 = Some d →
  d ∉ fs_dirs w3 →
  main_argparse E commands description w0 = (Raise (FileNotFoundError d), w3).
Proof.
  intros Hstart Htmp Hmk Hcall Hkeep Hd Hin.
  rewrite (main_argparse_after_startup _ _ _ _ _ _ Hstart).
  rewrite (run_command_scoped _ _ _ _ _ Htmp Hmk Hcall).
  unfold finish_tmp_dir, bind, gets, shutil_rmtree.
  by rewrite Hkeep, Hd, (bool_decide_eq_false_2 _ Hin).
Qed.

(** X9: when the place for the scoped directory does not exist,
    [main_argparse] raises [FileNotFoundError] for the path it tried and the
    command is not run: apart from the candidate name that was used up, the
    state is the one after logging. *)
Theorem main_argparse_base_dir_missing
    (commands : Commands) (description : string) (w0 : World) (args : Namespace)
    (w1 : World) (argv0 : string) (rest : list string) (command : Value)
    (base name : string) (names : list string) :
  startup E commands description w0 = (Ok args, w1) →
  sys_argv w1 = argv0 :: rest →
  args !! "command" = Some command →
  args !! "tmp_dir" = Some (VStr base) →
  name_candidates w1 = name :: names →
  let path :=
    os_path_join base
      ((proposed_dir (before_last_dot (os_path_basename argv0)) command (os_environ w1)
          +:+ "-") +:+ name) in
  path ∉ fs_dirs w1 →
  parent_dir path ∉ fs_dirs w1 →
  main_argparse E commands description w0
    = (Raise (FileNotFoundError path), set_name_candidates names w1).
Proof.
  intros Hstart Hargv Hcommand Htmp Hnames path Hnew Hpar.
  rewrite (main_argparse_after_startup _ _ _ _ _ _ Hstart).
  unfold run_command, hasattr. rewrite Htmp.
  rewrite bool_decide_eq_true_2 by eauto.
  unfold make_scoped_tmp_dir, script_name, getattr, tempfile_mkdtemp, bind, gets, ret.
  rewrite Hargv, Hcommand, Htmp, Hnames. simpl mkdtemp_loop.
  unfold os_mkdir. simpl fs_dirs. fold path.
  by rewrite (bool_decide_eq_false_2 _ Hnew), (bool_decide_eq_false_2 _ Hpar).
Qed.

(** ** attach_main *)

(** X10: with [split_args], [attach_main] on a handler that declares a
    variadic parameter raises the assertion error of [main_command] at once:
    no plugin is loaded, no hook runs and the state is as before. *)
Theorem attach_main_rejects_variadic_first
    (parser : Parser) (cmd_main : Callable) (w : World) :
  variadic (getargspec_of E cmd_main) →
  attach_main E parser cmd_main true w = (Raise (AssertionError assertion_message), w).
Proof.
  intros Hv. unfold attach_main, bind, lift. rewrite main_command_eq.
  destruct Hv as [Hv|Hv].
  - by destruct (as_varargs (getargspec_of E cmd_main)).
  - destruct (as_keywords (getargspec_of E cmd_main)); [|done].
    by destruct (as_varargs (getargspec_of E cmd_main)).
Qed.

Lemma attach_main_ok_inv (parser : Parser) (cmd_main : Callable) (split_args : bool)
    (w0 : World) (parser' : Parser) (w1 : World) :
  attach_main E parser cmd_main split_args w0 = (Ok parser', w1) →
  ∃ attached configured,
    (if split_args
     then attached = _main cmd_main (list_to_set (as_args (getargspec_of E cmd_main)))
          ∧ ¬ variadic (getargspec_of E cmd_main)
     else attached = cmd_main)
    ∧ parser' = set_defaults "func_main" (VFunc (call_main attached))
                  (set_description (doc_of E attached) configured).
Proof.
  unfold attach_main. intros H.
  apply bind_ok_inv in H as (f & wa & Hf & H).
  apply bind_ok_inv in H as (u & wb & _ & H).
  apply bind_ok_inv in H as (p & wc & _ & H).
  injection H as <- <-. exists f, p. split; [|done].
  destruct split_args.
  - unfold lift in Hf. rewrite main_command_eq in Hf. unfold variadic.
    destruct (as_varargs (getargspec_of E cmd_main)); [discriminate|].
    destruct (as_keywords (getargspec_of E cmd_main)); [discriminate|].
    injection Hf as <- _. split; [done|]. by intros [?|?].
  - unfold ret in Hf. by injection Hf as <- _.
Qed.

(** X11: after [attach_main], with or without [split_args], the description
    of the parser is the docstring of the handler, so that the subcommand
    listing of the help action prints, after the line for the subcommand, the
    formatted docstring of the handler, and only that line for a handler
    without a docstring or with an empty one. *)
Theorem attach_main_description_is_docstring
    (parser : Parser) (handler : Callable) (split_args : bool) (w0 : World)
    (parser' : Parser) (w1 : World) :
  attach_main E parser handler split_args w0 = (Ok parser', w1) →
  p_description parser' = doc_of E handler
  ∧ ∀ fill argv0 choice,
      print_subcommand fill argv0 choice parser' =
        (nl +:+ indent_space +:+ os_path_basename argv0 +:+ " "
           +:+ (color_BOLD +:+ choice +:+ color_END) +:+ " [...]")
        :: match doc_of E handler with
           | Some (String c d) => [format_description fill (String c d)]
           | _ => []
           end.
Proof.
  intros H. apply attach_main_ok_inv in H as (attached & p & Hatt & ->).
  assert (Hdoc : doc_of E attached = doc_of E handler).
  { destruct split_args; [by destruct Hatt as [-> _] | by subst]. }
  split; [by simpl|].
  intros fill argv0 choice. unfold print_subcommand. simpl p_description.
  rewrite Hdoc. by destruct (doc_of E handler) as [[|c d]|].
Qed.

(** X12: a command attached with [split_args] and run without a scoped
    directory is called with its declared parameters: when the [func_main]
    field of the parsed arguments is the callback that [attach_main] stored,
    there is no [tmp_dir] field, and only the built-in [cmd_call_cmd] is
    registered, running the command is calling the handler with the fields of
    the namespace that it declares as keyword arguments. *)
Theorem run_command_binds_split_args
    (parser : Parser) (handler : Callable) (w0 : World) (parser' : Parser) (w1 : World)
    (args : Namespace) (w : World) :
  attach_main E parser handler true w0 = (Ok parser', w1) →
  args !! "func_main" = p_defaults parser' !! "func_main" →
  hasattr args "tmp_dir" = false →
  only_builtin_call_cmd E (registry w) →
  run_command E args w =
    call E handler
      (Keywords (dict_subset args (list_to_set (as_args (getargspec_of E handler))))) w.
Proof.
  intros Hattach Hfm Htmp Hreg.
  apply attach_main_ok_inv in Hattach as (attached & p & [-> _] & ->).
  simpl in Hfm. rewrite lookup_insert_eq in Hfm.
  unfold run_command, call_func_main, getattr, bind. rewrite Htmp, Hfm. simpl.
  by rewrite hook_cmd_call_cmd_builtin.
Qed.

(** ** make_parser on several commands *)

Lemma add_subcommands_entries (commands : Commands) :
  ∀ added w entries w',
    add_subcommands added commands w = (Ok entries, w') →
    ∃ new,
      entries = added ++ new
      ∧ Forall2 (λ cmd entry,
                   entry.1.1 = cmd.1
                   ∧ ∃ wa wb, b_call1 cmd.2 (ArgumentParser None None true) wa
                              = (Ok entry.2, wb))
          commands new
      ∧ NoDup (map fst commands)
      ∧ ∀ name, name ∈ map fst commands →
                name ∉ map (λ e : option string * option string * Parser, e.1.1) added.
Proof.
  induction commands as [|[name b] cs IH]; intros added w entries w' H.
  - injection H as <- <-. exists []. split_and!; [by rewrite app_nil_r | constructor.. |].
    intros name Hin. by apply elem_of_nil in Hin.
  - simpl in H.
    apply bind_ok_inv in H as (e & w1 & He & H).
    apply add_subcommand_ok_inv in He as (h & p & _ & Hfree & Hp & ->).
    apply IH in H as (new & -> & Hnew & Hnd & Hnames).
    exists ((name, h, p) :: new). split_and!.
    + by rewrite <- app_assoc.
    + constructor; [|done]. simpl. eauto.
    + simpl. apply NoDup_cons. split; [|done].
      intros Hin. apply (Hnames name Hin).
      rewrite map_app. apply elem_of_app. right. simpl. apply list_elem_of_here.
    + intros n Hn. simpl in Hn. apply elem_of_cons in Hn as [->|Hn]; [done|].
      intros Hin. apply (Hnames n Hn). rewrite map_app. apply elem_of_app. by left.
Qed.

(** X13: for a command list other than the single unnamed descriptor,
    [make_parser] returns a parser without the standard help option, with the
    given description, and with exactly three arguments: the help action of
    this module on [--help] and [-h], the version on [--version] and [-V],
    and the subcommands.  The subcommands are the commands of the list, in the
    same order and under the same names, and the parser of each is what its
    parser-construction function made of a fresh parser.  The names of the
    list are then pairwise distinct ([None] may be one of them):
    [add_parser] refuses a name that is taken, so that [make_parser] raises
    on every list in which a name occurs twice. *)
Theorem make_parser_multi_structure
    (commands : Commands) (description : string) (w : World) :
  single_unnamed commands = false →
  (∀ parser w',
     make_parser E commands description w = (Ok parser, w') →
     p_description parser = Some description
     ∧ p_add_help parser = false
     ∧ p_defaults parser = ∅
     ∧ map a_option_strings (p_actions parser) = [["--help"; "-h"]; ["--version"; "-V"]; []]
     ∧ map a_kind (p_actions parser)
       = [SubcommandHelpAction; VersionAction (version E); SubParsersAction]
     ∧ NoDup (map fst commands)
     ∧ Forall2 (λ cmd entry,
                  entry.1.1 = cmd.1
                  ∧ ∃ wa wb, b_call1 cmd.2 (ArgumentParser None None true) wa
                             = (Ok entry.2, wb))
         commands (subcommands parser))
  ∧ (¬ NoDup (map fst commands) →
     ∃ e w', make_parser E commands description w = (Raise e, w')).
Proof.
  intros Hm.
  assert (Hok : ∀ parser w',
    make_parser E commands description w = (Ok parser, w') →
    p_description parser = Some description
    ∧ p_add_help parser = false
    ∧ p_defaults parser = ∅
    ∧ map a_option_strings (p_actions parser) = [["--help"; "-h"]; ["--version"; "-V"]; []]
    ∧ map a_kind (p_actions parser)
      = [SubcommandHelpAction; VersionAction (version E); SubParsersAction]
    ∧ NoDup (map fst commands)
    ∧ Forall2 (λ cmd entry,
                 entry.1.1 = cmd.1
                 ∧ ∃ wa wb, b_call1 cmd.2 (ArgumentParser None None true) wa
                            = (Ok entry.2, wb))
        commands (subcommands parser)).
  { intros parser w' H. rewrite make_parser_multi in H by done.
    apply bind_ok_inv in H as (entries & w1 & He & H).
    injection H as <- <-.
    apply add_subcommands_entries in He as (new & -> & Hnew & Hnd & _).
    split_and!; try done.
    unfold subcommands, add_argument, ArgumentParser. simpl.
    by rewrite app_nil_r. }
  split; [exact Hok|].
  intros Hdup.
  destruct (make_parser E commands description w) as [[parser|e] w'] eqn:H; [|eauto].
  destruct (Hok _ _ eq_refl) as (_ & _ & _ & _ & _ & Hnd & _). done.
Qed.

Lemma subcommand_help_with_sphinx (doc : option string) (w : World) :
  "sphinx" ∈ sys_modules w →
  subcommand_help doc w = (Ok (Some "   "), w).
Proof.
  intros Hs. unfold subcommand_help, bind, gets, ret.
  rewrite (bool_decide_eq_true_2 _ Hs). by rewrite orb_true_r.
Qed.

Lemma add_subcommands_sphinx (commands : Commands) :
  ∀ added w entries w',
    Forall (λ cmd, keeps_docs_mode cmd.2) commands →
    "sphinx" ∈ sys_modules w →
    add_subcommands added commands w = (Ok entries, w') →
    ∃ new, entries = added ++ new ∧ Forall (λ entry, entry.1.2 = Some "   ") new.
Proof.
  induction commands as [|[name b] cs IH]; intros added w entries w' Hk Hs H.
  - injection H as <- <-. exists []. split; [by rewrite app_nil_r | constructor].
  - simpl in H. apply Forall_cons in Hk as [Hb Hk].
    apply bind_ok_inv in H as (e & w1 & He & H).
    apply add_subcommand_ok_inv in He as (h & p & Hh & _ & Hp & ->).
    rewrite subcommand_help_with_sphinx in Hh by done.
    injection Hh as <-.
    destruct (Hb _ _ _ _ Hp) as [_ Hmod].
    apply IH in H as (new & -> & Hnew); [|done|by rewrite Hmod].
    eexists (_ :: new). split; [by rewrite <- app_assoc|].
    by apply Forall_cons_2.
Qed.

(** X14: when sphinx is among the loaded modules (and the
    parser-construction functions leave [sys.modules] alone), [make_parser]
    gives every subcommand the help of three blanks, whether or not its
    parser-construction function has a docstring. *)
Theorem make_parser_help_under_sphinx
    (commands : Commands) (description : string) (w : World) (parser : Parser) (w' : World) :
  single_unnamed commands = false →
  Forall (λ cmd, keeps_docs_mode cmd.2) commands →
  "sphinx" ∈ sys_modules w →
  make_parser E commands description w = (Ok parser, w') →
  Forall (λ entry, entry.1.2 = Some "   ") (subcommands parser).
Proof.
  intros Hm Hk Hs H. rewrite make_parser_multi in H by done.
  apply bind_ok_inv in H as (entries & w1 & He & H).
  injection H as <- <-.
  unfold subcommands, add_argument, ArgumentParser. simpl.
  rewrite app_nil_r.
  by destruct (add_subcommands_sphinx _ _ _ _ _ Hk Hs He) as (new & -> & Hnew).
Qed.

(** X15: with an empty command list and exactly one process argument,
    [main_argparse] raises [IndexError] (from [commands[0]]) before anything
    is parsed; the state is untouched. *)
Theorem main_argparse_empty_command_list
    (description : string) (w : World) (argv0 argv1 : string) :
  sys_argv w = [argv0; argv1] →
  main_argparse E [] description w = (Raise IndexError, w).
Proof.
  intros Hargv. unfold main_argparse, make_parser, parse_process_args, bind, ret, gets, raise.
  simpl. by rewrite Hargv.
Qed.

(** ** run_cmd *)

Lemma dict_getitem_None (pairs : Commands) (cmd : string) :
  Some cmd ∉ map fst pairs → dict_getitem pairs cmd = None.
Proof.
  intros Hn. unfold dict_getitem.
  assert (Hf : filter (λ c : option string * Builder, c.1 = Some cmd) pairs = []).
  { induction pairs as [|[k b] ps IH]; [done|].
    simpl in Hn. apply not_elem_of_cons in Hn as [Hk Hn].
    rewrite filter_cons. simpl. destruct (decide (k = Some cmd)); [congruence|].
    by apply IH. }
  by rewrite Hf.
Qed.

Lemma dict_getitem_last (pre post : Commands) (cmd : string) (b : Builder) :
  Some cmd ∉ map fst post →
  dict_getitem (pre ++ (Some cmd, b) :: post) cmd = Some b.
Proof.
  intros Hn. unfold dict_getitem.
  assert (Hf : filter (λ c : option string * Builder, c.1 = Some cmd) post = []).
  { induction post as [|[k b'] ps IH]; [done|].
    simpl in Hn. apply not_elem_of_cons in Hn as [Hk Hn].
    rewrite filter_cons. simpl. destruct (decide (k = Some cmd)); [congruence|].
    by apply IH. }
  rewrite filter_app, filter_cons. simpl.
  destruct (decide (Some cmd = Some cmd)); [|done].
  by rewrite Hf, last_snoc.
Qed.

(** X16: [run_cmd] on a command name that the module's command list does not
    have raises [KeyError] for it; no parser is built, nothing is parsed or
    run, and the state is untouched. *)
Theorem run_cmd_unknown_command
    (loaded : string → option Commands) (commands : Commands) (cmd : string)
    (args : list Value) (w : World) :
  Some cmd ∉ map fst commands →
  run_cmd E loaded (ModuleObject (Some commands)) cmd args w
    = (Raise (OtherError "KeyError" cmd), w).
Proof.
  intros Hn. unfold run_cmd, bind, ret, raise. by rewrite dict_getitem_None.
Qed.

(** X17: [run_cmd] builds the parser of the last entry of the command list
    with the given name from a fresh parser, parses the arguments converted
    to strings, and calls the [func_main] of the result; it returns [None]
    whatever the command returned, lets the command's exception through, and
    leaves the state as the command left it: no logger is set up and no
    scoped directory is made or removed. *)
Theorem run_cmd_discards_result
    (loaded : string → option Commands) (pre post : Commands) (cmd : string)
    (parser_fn : Builder) (args : list Value) (w : World)
    (parser : Parser) (w1 : World) (args_parsed : Namespace) (w2 : World)
    (r : Result Value) (w3 : World) :
  Some cmd ∉ map fst post →
  b_call1 parser_fn (ArgumentParser None None true) w = (Ok parser, w1) →
  parse_args E parser (map pystr args) w1 = (Ok args_parsed, w2) →
  call_func_main E args_parsed w2 = (r, w3) →
  run_cmd E loaded (ModuleObject (Some (pre ++ (Some cmd, parser_fn) :: post))) cmd args w
    = (match r with Ok _ => Ok VNone | Raise e => Raise e end, w3).
Proof.
  intros Hn Hparser Hparse Hcall. unfold run_cmd.
  unfold bind at 1. unfold ret at 1. unfold bind at 1. unfold ret at 1.
  unfold bind at 1. rewrite dict_getitem_last by done. unfold ret at 1.
  rewrite (bind_ok _ _ _ _ _ Hparser), (bind_ok _ _ _ _ _ Hparse).
  unfold bind, ret. rewrite Hcall. by destruct r.
Qed.

(** ** common_args *)

Lemma with_arguments_nil (p : Parser) : with_arguments [] p = p.
Proof. unfold with_arguments. simpl. rewrite app_nil_r. by destruct p. Qed.

Lemma with_arguments_app (cs1 cs2 : list AddArgument) (p : Parser) :
  with_arguments cs2 (with_arguments cs1 p) = with_arguments (cs1 ++ cs2) p.
Proof. unfold with_arguments. simpl. by rewrite map_app, app_assoc. Qed.

Lemma option_strings_with_arguments (calls : list AddArgument) (p : Parser) :
  option_strings (with_arguments calls p)
  = option_strings p ++ flat_map (λ a, a_option_strings (action_of a)) calls.
Proof.
  unfold option_strings, with_arguments. simpl. rewrite flat_map_app. f_equal.
  induction calls as [|a cs IH]; [done|]. simpl. by rewrite IH.
Qed.

Lemma add_argument_checked_ok (a : Action) (p p' : Parser) :
  add_argument_checked a p = Ok p' ↔
    (∀ f, f ∈ a_option_strings a → f ∉ option_strings p) ∧ p' = add_argument a p.
Proof.
  unfold add_argument_checked.
  destruct (filter (λ f, f ∈ option_strings p) (a_option_strings a)) as [|c cs] eqn:Hf.
  - split.
    + intros H. injection H as <-. split; [|done].
      intros f Hin Hp.
      assert (Hc : f ∈ filter (λ f, f ∈ option_strings p) (a_option_strings a))
        by (by apply list_elem_of_filter).
      rewrite Hf in Hc. by apply not_elem_of_nil in Hc.
    + by intros [_ ->].
  - split; [discriminate|]. intros [Hno _]. exfalso.
    assert (Hc : c ∈ filter (λ f, f ∈ option_strings p) (a_option_strings a))
      by (rewrite Hf; apply list_elem_of_here).
    apply list_elem_of_filter in Hc as [Hp Hin]. by apply (Hno c).
Qed.

Lemma add_argument_checked_error (a : Action) (p : Parser) (e : Exn) :
  add_argument_checked a p = Raise e → ∃ msg, e = OtherError "ArgumentError" msg.
Proof.
  unfold add_argument_checked.
  destruct (filter _ _); [discriminate|]. intros H. injection H as <-. eauto.
Qed.

Lemma add_argument_checked_conflict (a : Action) (p : Parser) (e : Exn) :
  add_argument_checked a p = Raise e →
  ∃ f, f ∈ a_option_strings a ∧ f ∈ option_strings p.
Proof.
  unfold add_argument_checked.
  destruct (filter (λ f, f ∈ option_strings p) (a_option_strings a)) as [|c cs] eqn:Hf;
    [discriminate|]. intros _.
  assert (Hc : c ∈ filter (λ f, f ∈ option_strings p) (a_option_strings a))
    by (rewrite Hf; apply list_elem_of_here).
  apply list_elem_of_filter in Hc as [Hp Hin]. eauto.
Qed.

(** A run of [add_argument] calls goes through when none of the option
    strings is taken; otherwise it stops at the first call with an option
    string that is, and the parser has the arguments of the calls before. *)
Lemma add_arguments_spec (calls : list AddArgument) :
  ∀ p,
    match add_arguments calls p with
    | (Ok _, p') =>
        p' = with_arguments calls p
        ∧ ∀ f, f ∈ flat_map (λ a, a_option_strings (action_of a)) calls →
               f ∉ option_strings p
    | (Raise e, p') =>
        ∃ done a rest,
          calls = done ++ a :: rest
          ∧ p' = with_arguments done p
          ∧ (∀ f, f ∈ flat_map (λ a, a_option_strings (action_of a)) done →
                  f ∉ option_strings p)
          ∧ (∃ f, f ∈ a_option_strings (action_of a) ∧ f ∈ option_strings p')
          ∧ ∃ msg, e = OtherError "ArgumentError" msg
    end.
Proof.
  induction calls as [|a cs IH]; intros p; simpl add_arguments.
  - split; [by rewrite with_arguments_nil|]. intros f Hf. by apply elem_of_nil in Hf.
  - destruct (add_argument_checked (action_of a) p) as [p1|e] eqn:Ha.
    + apply add_argument_checked_ok in Ha as [Hno ->].
      change (add_argument (action_of a) p) with (with_arguments [a] p).
      specialize (IH (with_arguments [a] p)).
      destruct (add_arguments cs (with_arguments [a] p)) as [[[]|e] p'].
      * destruct IH as [-> Hfree]. split; [by rewrite with_arguments_app|].
        intros f Hf. simpl in Hf. apply elem_of_app in Hf as [Hf|Hf]; [by apply Hno|].
        intros Hin. apply (Hfree f Hf). rewrite option_strings_with_arguments.
        apply elem_of_app. by left.
      * destruct IH as (done & a' & rest & -> & -> & Hfree & Hconflict & Hmsg).
        exists (a :: done), a', rest. split_and!.
        -- done.
        -- by rewrite with_arguments_app.
        -- intros f Hf. simpl in Hf. apply elem_of_app in Hf as [Hf|Hf]; [by apply Hno|].
           intros Hin. apply (Hfree f Hf). rewrite option_strings_with_arguments.
           apply elem_of_app. by left.
        -- done.
        -- done.
    + exists [], a, cs. split_and!.
      * done.
      * by rewrite with_arguments_nil.
      * intros f Hf. by apply elem_of_nil in Hf.
      * by eapply add_argument_checked_conflict.
      * by eapply add_argument_checked_error.
Qed.

Lemma common_keys_cases (k : string) :
  k ∈ common_keys → k = "loglevel" ∨ k = "tmp_dir" ∨ k = "threads" ∨ k = "version".
Proof.
  unfold common_keys. rewrite !elem_of_cons, elem_of_nil. tauto.
Qed.

Lemma common_arg_None (tmp_default k : string) (v : Value) :
  k ∉ common_keys → common_arg E tmp_default k v = None.
Proof.
  unfold common_keys. rewrite !not_elem_of_cons. intros (? & ? & ? & ? & _).
  unfold common_arg. by rewrite !bool_decide_eq_false_2 by done.
Qed.

(** The calls for a key with a single call. *)
Lemma add_arguments_single (k : string) (c : AddArgument) (p : Parser) :
  k ≠ "tmp_dir" →
  a_option_strings (action_of c) = common_flags k →
  match add_arguments [c] p with
  | (Ok _, p') =>
      p' = with_arguments [c] p ∧ ∀ f, f ∈ common_flags k → f ∉ option_strings p
  | (Raise e, p') =>
      (∃ f, f ∈ common_flags k ∧ f ∈ option_strings p)
      ∧ (∃ msg, e = OtherError "ArgumentError" msg)
      ∧ ∃ done,
          p' = with_arguments done p
          ∧ flat_map (λ a, a_option_strings (action_of a)) done
            = if bool_decide (k = "tmp_dir" ∧ "--tmp_dir" ∉ option_strings p)
              then ["--tmp_dir"] else []
  end.
Proof.
  intros Hk Hflags. pose proof (add_arguments_spec [c] p) as H.
  destruct (add_arguments [c] p) as [[[]|e] p'].
  - destruct H as [-> Hfree]. split; [done|]. intros f Hf. apply Hfree.
    simpl. by rewrite app_nil_r, Hflags.
  - destruct H as (done & a & rest & Hcalls & -> & _ & (f & Hf & Hin) & Hmsg).
    destruct done as [|d done]; [|by destruct done].
    injection Hcalls as <- <-. rewrite with_arguments_nil in Hin.
    split_and!; [exists f; by rewrite <- Hflags | done |].
    exists []. split; [done|].
    rewrite bool_decide_eq_false_2; [done|]. by intros [? _].
Qed.

(** What the calls for a recognized key define, and how they end. *)
Lemma common_arg_Some (tmp_default k : string) (v : Value) :
  k ∈ common_keys →
  ∃ calls,
    common_arg E tmp_default k v = Some calls
    ∧ flat_map (λ a, a_option_strings (action_of a)) calls = common_flags k
    ∧ map (λ a, a_dest (action_of a)) calls = common_dests k
    ∧ ∀ p, match add_arguments calls p with
           | (Ok _, p') =>
               p' = with_arguments calls p
               ∧ ∀ f, f ∈ common_flags k → f ∉ option_strings p
           | (Raise e, p') =>
               (∃ f, f ∈ common_flags k ∧ f ∈ option_strings p)
               ∧ (∃ msg, e = OtherError "ArgumentError" msg)
               ∧ ∃ done,
                   p' = with_arguments done p
                   ∧ flat_map (λ a, a_option_strings (action_of a)) done
                     = if bool_decide (k = "tmp_dir" ∧ "--tmp_dir" ∉ option_strings p)
                       then ["--tmp_dir"] else []
           end.
Proof.
  intros Hk. apply common_keys_cases in Hk as [-> | [-> | [-> | ->]]];
    eexists; (split; [reflexivity|]); (split; [reflexivity|]); (split; [reflexivity|]);
    intros q.
  - by apply add_arguments_single.
  - match goal with |- match add_arguments ?cs q with _ => _ end =>
      pose proof (add_arguments_spec cs q) as H; destruct (add_arguments cs q) as [[[]|e] p']
    end.
    + destruct H as [-> Hfree]. split; [done|]. intros f Hf. by apply Hfree.
    + destruct H as (done & a & rest & Hcalls & -> & Hfree & (f & Hf & Hin) & Hmsg).
      destruct done as [|d1 [|d2 done]].
      * injection Hcalls as <- <-. rewrite with_arguments_nil in Hin.
        simpl in Hf. apply list_elem_of_singleton in Hf as ->.
        split_and!; [exists "--tmp_dir"; split; [apply list_elem_of_here | done] | done |].
        exists []. split; [done|].
        rewrite bool_decide_eq_false_2; [done|]. by intros [_ ?].
      * injection Hcalls as <- <- <-.
        simpl in Hf. apply list_elem_of_singleton in Hf as ->.
        rewrite option_strings_with_arguments in Hin. simpl in Hin.
        apply elem_of_app in Hin as [Hin|Hin];
          [|by apply list_elem_of_singleton in Hin].
        assert (Hnew : "--tmp_dir" ∉ option_strings q).
        { apply Hfree. simpl. apply list_elem_of_here. }
        split_and!; [| done |].
        -- exists "--tmp_dirKeep". split; [|done].
           apply list_elem_of_further, list_elem_of_here.
        -- eexists [_]. split; [reflexivity|].
           by rewrite bool_decide_eq_true_2.
      * injection Hcalls as _ _ Hcalls. by destruct done.
  - by apply add_arguments_single.
  - by apply add_arguments_single.
Qed.

Lemma common_flags_inhabited (k : string) :
  k ∈ common_keys → ∃ f, f ∈ common_flags k.
Proof.
  intros Hk. apply common_keys_cases in Hk as [-> | [-> | [-> | ->]]];
    eexists; apply list_elem_of_here.
Qed.

Lemma common_flags_disjoint (k k' : string) (f : string) :
  k ∈ common_keys → k' ∈ common_keys →
  f ∈ common_flags k → f ∈ common_flags k' → k = k'.
Proof.
  intros Hk Hk'.
  apply common_keys_cases in Hk as [-> | [-> | [-> | ->]]];
    apply common_keys_cases in Hk' as [-> | [-> | [-> | ->]]]; try done;
    vm_compute common_flags; rewrite ?elem_of_cons, ?elem_of_nil; intros H1 H2;
    destruct_or!; subst; done.
Qed.

Lemma flat_map_option_strings (calls : list AddArgument) :
  flat_map a_option_strings (map action_of calls)
  = flat_map (λ a, a_option_strings (action_of a)) calls.
Proof. induction calls as [|a cs IH]; [done|]. simpl. by rewrite IH. Qed.

Lemma common_args_step (find_tmp_dir : World → string) (parser : Parser)
    (k : string) (v : Value) (rest : list (string * Value)) (w : World) :
  common_args E find_tmp_dir parser ((k, v) :: rest) w =
    match common_arg E (find_tmp_dir w) k v with
    | Some calls =>
        match add_arguments calls parser with
        | (Ok _, parser') => common_args E find_tmp_dir parser' rest w
        | (Raise e, parser') => (Raise e, parser', w)
        end
    | None => (Raise (OtherError "Exception" ("unrecognized argument " +:+ k)), parser, w)
    end.
Proof. reflexivity. Qed.

(** X18: [common_args] succeeds exactly when every key of the argument list
    is one of [loglevel], [tmp_dir], [threads] and [version], no key occurs
    twice, and none of the option strings of these keys is already defined
    by the parser; what it then returns is the parser object it was given,
    as the call leaves it. *)
Theorem common_args_succeeds_iff
    (find_tmp_dir : World → string) (arglist : list (string * Value))
    (parser : Parser) (w : World) :
  (∃ parser' w', common_args E find_tmp_dir parser arglist w = (Ok parser', parser', w'))
  ↔ Forall (λ k, k ∈ common_keys) (map fst arglist)
    ∧ NoDup (map fst arglist)
    ∧ ∀ k f, k ∈ map fst arglist → f ∈ common_flags k → f ∉ option_strings parser.
Proof.
  revert parser. induction arglist as [|[k v] rest IH]; intros parser.
  - simpl. split; [|by eauto]. intros _. split_and!; [constructor | constructor |].
    intros k f Hk. by apply elem_of_nil in Hk.
  - rewrite common_args_step. simpl map.
    destruct (decide (k ∈ common_keys)) as [Hk|Hk].
    + destruct (common_arg_Some (find_tmp_dir w) k v Hk) as (calls & -> & Hflags & _ & Hadd).
      specialize (Hadd parser).
      destruct (add_arguments calls parser) as [[[]|e] p1].
      * destruct Hadd as [-> Hfree]. rewrite IH, option_strings_with_arguments, Hflags.
        rewrite Forall_cons, NoDup_cons. split.
        -- intros (Hall & Hnd & Hrest). split_and!; try done.
           ++ intros Hin. destruct (common_flags_inhabited k Hk) as [f Hf].
              apply (Hrest k f Hin Hf). apply elem_of_app. by right.
           ++ intros k' f Hk' Hf. apply elem_of_cons in Hk' as [->|Hk']; [by apply Hfree|].
              intros Hin. apply (Hrest k' f Hk' Hf). apply elem_of_app. by left.
        -- intros ([_ Hall] & [Hnin Hnd] & Hrest). split_and!; try done.
           intros k' f Hk' Hf. rewrite not_elem_of_app. split.
           ++ apply (Hrest k' f); [by apply list_elem_of_further | done].
           ++ intros Hfk. apply Hnin.
              rewrite Forall_forall in Hall.
              by rewrite (common_flags_disjoint k k' f Hk (Hall _ Hk') Hfk Hf).
      * destruct Hadd as ((f & Hf & Hin) & _). split.
        -- intros (? & ? & ?). discriminate.
        -- intros (_ & _ & Hrest). exfalso. by apply (Hrest k f (list_elem_of_here _ _) Hf).
    + rewrite common_arg_None by done. split.
      * intros (? & ? & ?). discriminate.
      * intros (Hall & _). apply Forall_cons in Hall as [? _]. done.
Qed.

Lemma common_args_ok_inv (find_tmp_dir : World → string) (arglist : list (string * Value)) :
  ∀ parser parser' parser_left w w',
    common_args E find_tmp_dir parser arglist w = (Ok parser', parser_left, w') →
    w' = w ∧ parser_left = parser'
    ∧ ∃ callss,
        Forall2 (λ kv calls, common_arg E (find_tmp_dir w) kv.1 kv.2 = Some calls)
          arglist callss
        ∧ parser' = with_arguments (List.concat callss) parser.
Proof.
  induction arglist as [|[k v] rest IH]; intros parser parser' parser_left w w' H.
  - injection H as <- <- <-. split_and!; [done | done |]. exists []. split; [constructor|].
    by rewrite with_arguments_nil.
  - rewrite common_args_step in H.
    destruct (common_arg E (find_tmp_dir w) k v) as [calls|] eqn:Hc; [|discriminate].
    destruct (decide (k ∈ common_keys)) as [Hk|Hk];
      [|by rewrite common_arg_None in Hc].
    destruct (common_arg_Some (find_tmp_dir w) k v Hk) as (calls' & Hc' & _ & _ & Hadd).
    rewrite Hc in Hc'. injection Hc' as <-. specialize (Hadd parser).
    destruct (add_arguments calls parser) as [[[]|e] p1]; [|discriminate].
    destruct Hadd as [-> _].
    apply IH in H as (-> & -> & callss & Hall & ->). split_and!; [done | done |].
    exists (calls :: callss). split; [by constructor|].
    by rewrite with_arguments_app.
Qed.

Lemma common_args_world (find_tmp_dir : World → string) (arglist : list (string * Value)) :
  ∀ parser w r parser_left w',
    common_args E find_tmp_dir parser arglist w = (r, parser_left, w') → w' = w.
Proof.
  induction arglist as [|[k v] rest IH]; intros parser w r parser_left w' H.
  - by injection H as _ _ <-.
  - rewrite common_args_step in H.
    destruct (common_arg E (find_tmp_dir w) k v) as [calls|]; [|by injection H as _ _ <-].
    destruct (add_arguments calls parser) as [[[]|e] p1];
      [by eapply IH | by injection H as _ _ <-].
Qed.

Lemma common_then_attach_keeps_environ
    (find_tmp_dir : World → string) (arglist : list (string * Value)) (parser : Parser)
    (cmd_main : Callable) (split_args : bool) (w : World) (r : Result Parser) (w' : World) :
  (∀ p, impl_configure_parser (impls_of E p) = None) →
  (p <- returned (common_args E find_tmp_dir parser arglist) ;;
   attach_main E p cmd_main split_args) w = (r, w') →
  os_environ w' = os_environ w ∧ sys_modules w' = sys_modules w.
Proof.
  intros Hnone H. unfold bind, returned in H.
  destruct (common_args E find_tmp_dir parser arglist w) as [[[p|e] parser_left] w1] eqn:Hc;
    apply common_args_world in Hc as ->.
  - by eapply attach_main_keeps_environ.
  - by injection H as _ <-.
Qed.

(** X19: when [common_args] succeeds, what it returns is the parser object
    as the call leaves it; it leaves the process state alone and only
    appends arguments to the parser: description, usage, help switch and
    parser-level defaults are unchanged, the arguments that were there come
    first, and the option strings and the destinations of the new ones are
    those of the keys, in the order of the argument list ([tmp_dir] stands
    for two arguments, [--tmp_dir] and [--tmp_dirKeep]). *)
Theorem common_args_appends_arguments
    (find_tmp_dir : World → string) (arglist : list (string * Value))
    (parser parser' parser_left : Parser) (w w' : World) :
  common_args E find_tmp_dir parser arglist w = (Ok parser', parser_left, w') →
  parser_left = parser'
  ∧ w' = w
  ∧ p_description parser' = p_description parser
  ∧ p_usage parser' = p_usage parser
  ∧ p_add_help parser' = p_add_help parser
  ∧ p_defaults parser' = p_defaults parser
  ∧ ∃ added,
      p_actions parser' = p_actions parser ++ added
      ∧ flat_map a_option_strings added = flat_map common_flags (map fst arglist)
      ∧ map a_dest added = flat_map common_dests (map fst arglist).
Proof.
  intros H. apply common_args_ok_inv in H as (-> & -> & callss & Hall & ->).
  split_and!; try done. exists (map action_of (List.concat callss)).
  split; [done|]. clear parser.
  induction Hall as [|[k v] calls rest callss Hc Hall IH]; [done|].
  simpl in Hc. simpl.
  destruct (decide (k ∈ common_keys)) as [Hk|Hk];
    [|by rewrite common_arg_None in Hc].
  destruct (common_arg_Some (find_tmp_dir w) k v Hk) as (calls' & Hc' & Hflags & Hdests & _).
  rewrite Hc in Hc'. injection Hc' as <-.
  destruct IH as [IH1 IH2].
  rewrite !map_app, flat_map_app, IH1, IH2. split.
  - f_equal. by rewrite <- Hflags, flat_map_option_strings.
  - f_equal. rewrite <- Hdests. by rewrite map_map.
Qed.

(** X20: when [common_args] fails, it fails at one entry of the argument
    list, in one of two ways: with [Exception] and the message
    [unrecognized argument k] when the key [k] of the entry is not one of
    the four, or with the [ArgumentError] of argparse when an option string
    of the key is already defined, by the parser as it was given or by an
    earlier entry.  The process state is untouched, but the parser object is
    not: it keeps everything it had and has gained the arguments of the
    entries before the failing one, in order, and [--tmp_dir] as well when
    the failing key is [tmp_dir] and only [--tmp_dirKeep] was taken.
    Description, usage, help switch and parser-level defaults stay as they
    were. *)
Theorem common_args_failures
    (find_tmp_dir : World → string) (arglist : list (string * Value))
    (parser : Parser) (w : World) (e : Exn) (parser_left : Parser) (w' : World) :
  common_args E find_tmp_dir parser arglist w = (Raise e, parser_left, w') →
  w' = w
  ∧ p_description parser_left = p_description parser
  ∧ p_usage parser_left = p_usage parser
  ∧ p_add_help parser_left = p_add_help parser
  ∧ p_defaults parser_left = p_defaults parser
  ∧ ∃ pre k post added,
      map fst arglist = pre ++ k :: post
      ∧ Forall (λ k', k' ∈ common_keys) pre
      ∧ p_actions parser_left = p_actions parser ++ added
      ∧ ((k ∉ common_keys)
         ∧ e = OtherError "Exception" ("unrecognized argument " +:+ k)
         ∧ flat_map a_option_strings added = flat_map common_flags pre
         ∨ k ∈ common_keys
           ∧ (∃ msg, e = OtherError "ArgumentError" msg)
           ∧ (∃ f, f ∈ common_flags k
                   ∧ f ∈ option_strings parser ++ flat_map common_flags pre)
           ∧ flat_map a_option_strings added
             = flat_map common_flags pre
               ++ if bool_decide
                       (k = "tmp_dir"
                        ∧ "--tmp_dir" ∉ option_strings parser ++ flat_map common_flags pre)
                  then ["--tmp_dir"] else []).
Proof.
  revert parser. induction arglist as [|[k v] rest IH]; intros parser H.
  - discriminate.
  - rewrite common_args_step in H. simpl map.
    destruct (decide (k ∈ common_keys)) as [Hk|Hk].
    + destruct (common_arg_Some (find_tmp_dir w) k v Hk) as (calls & Hc & Hflags & _ & Hadd).
      rewrite Hc in H. specialize (Hadd parser).
      destruct (add_arguments calls parser) as [[[]|e1] p1].
      * destruct Hadd as [-> _].
        apply IH in H as (-> & Hd & Hu & Hh & Hdf & pre & k' & post & added & Hkeys & Hpre
                          & Hact & Hcase).
        split_and!; try done.
        exists (k :: pre), k', post, (map action_of calls ++ added).
        rewrite option_strings_with_arguments, Hflags, <- app_assoc in Hcase.
        split_and!.
        -- by rewrite Hkeys.
        -- by apply Forall_cons_2.
        -- rewrite Hact. simpl. by rewrite <- app_assoc.
        -- simpl flat_map at 2 4 5 6.
           rewrite flat_map_app, flat_map_option_strings, Hflags.
           destruct Hcase as [(Hn & He & Hadded)|(Hin & Hmsg & Hconflict & Hadded)].
           ++ left. split_and!; [done | done |]. by rewrite Hadded.
           ++ right. split_and!; [done | done | done |].
              by rewrite Hadded, <- app_assoc.
      * injection H as <- <- <-.
        destruct Hadd as (Hconflict & Hmsg & done & -> & Hdone).
        split_and!; try done.
        exists [], k, (map fst rest), (map action_of done).
        split_and!; [done | constructor | done |].
        right. simpl. rewrite app_nil_r, flat_map_option_strings.
        split_and!; done.
    + rewrite common_arg_None in H by done. injection H as <- <- <-.
      split_and!; try done.
      exists [], k, (map fst rest), [].
      split_and!; [done | constructor | by rewrite app_nil_r |].
      left. done.
Qed.

Lemma common_args_calls_in_parser
    (find_tmp_dir : World → string) (arglist : list (string * Value))
    (parser parser' parser_left : Parser) (w w' : World) (k : string) (v : Value) :
  common_args E find_tmp_dir parser arglist w = (Ok parser', parser_left, w') →
  (k, v) ∈ arglist →
  ∃ calls, common_arg E (find_tmp_dir w) k v = Some calls
           ∧ ∀ a, a ∈ calls → action_of a ∈ p_actions parser'.
Proof.
  intros H Hin. apply common_args_ok_inv in H as (-> & -> & callss & Hall & ->).
  simpl.
  induction Hall as [|[k' v'] calls rest callss Hc Hall IH];
    [by apply elem_of_nil in Hin|].
  apply elem_of_cons in Hin as [Heq|Hin].
  - injection Heq as <- <-. exists calls. split; [done|].
    intros a Ha. apply elem_of_app. right. apply list_elem_of_fmap. exists a.
    split; [done|]. simpl. apply elem_of_app. by left.
  - destruct (IH Hin) as (cs & Hcs & Hin').
    exists cs. split; [done|]. intros a Ha.
    specialize (Hin' a Ha). apply elem_of_app in Hin' as [?|Hin'];
      [apply elem_of_app; by left|].
    apply elem_of_app. right. simpl. rewrite map_app. apply elem_of_app. by right.
Qed.

(** X21: after a successful [common_args] with an entry for [tmp_dir], the
    parser has the option [--tmp_dir], whose default is the value of the
    entry or, when that is [None] or otherwise falsy, what
    [util.file.find_tmp_dir()] returns, and the switch [--tmp_dirKeep], off
    by default; so the parsed arguments of such a command have the fields
    that make [main_argparse] use, and by default remove, a scoped
    directory. *)
Theorem common_args_tmp_dir_defaults
    (find_tmp_dir : World → string) (arglist : list (string * Value))
    (parser parser' parser_left : Parser) (w w' : World) (v : Value) :
  common_args E find_tmp_dir parser arglist w = (Ok parser', parser_left, w') →
  ("tmp_dir", v) ∈ arglist →
  ∃ a keep,
    a ∈ p_actions parser' ∧ keep ∈ p_actions parser'
    ∧ a_option_strings a = ["--tmp_dir"] ∧ a_dest a = "tmp_dir" ∧ a_kind a = StoreAction
    ∧ a_default a = (if truthy v then v else VStr (find_tmp_dir w))
    ∧ a_option_strings keep = ["--tmp_dirKeep"] ∧ a_dest keep = "tmp_dirKeep"
    ∧ a_kind keep = StoreTrueAction ∧ a_default keep = VBool false.
Proof.
  intros H Hin.
  destruct (common_args_calls_in_parser _ _ _ _ _ _ _ _ _ H Hin) as (calls & Hc & Hall).
  change (common_arg E (find_tmp_dir w) "tmp_dir" v) with
    (Some [mkAddArgument ["--tmp_dir"] (Some "tmp_dir") None None
             (Some "Base directory for temp files. [default: %(default)s]")
             (Some (if negb (truthy v) then VStr (find_tmp_dir w) else v)) None None;
           mkAddArgument ["--tmp_dirKeep"] (Some "tmp_dirKeep") (Some "store_true") None
             (Some tmp_dirKeep_help) (Some (VBool false)) None None]) in Hc.
  injection Hc as <-.
  eexists _, _. split; [apply Hall, list_elem_of_here|].
  split; [apply Hall, list_elem_of_further, list_elem_of_here|].
  simpl. split_and!; try done. by destruct (truthy v).
Qed.

(** X22: after a successful [common_args] with an entry for [loglevel], the
    parser has the option [--loglevel] with the value of the entry as its
    default, or INFO when that value is [None] or otherwise falsy. *)
Theorem common_args_loglevel_default
    (find_tmp_dir : World → string) (arglist : list (string * Value))
    (parser parser' parser_left : Parser) (w w' : World) (v : Value) :
  common_args E find_tmp_dir parser arglist w = (Ok parser', parser_left, w') →
  ("loglevel", v) ∈ arglist →
  ∃ a,
    a ∈ p_actions parser'
    ∧ a_option_strings a = ["--loglevel"] ∧ a_dest a = "loglevel" ∧ a_kind a = StoreAction
    ∧ a_default a = (if truthy v then v else VStr "INFO").
Proof.
  intros H Hin.
  destruct (common_args_calls_in_parser _ _ _ _ _ _ _ _ _ H Hin) as (calls & Hc & Hall).
  change (common_arg E (find_tmp_dir w) "loglevel" v) with
    (Some [mkAddArgument ["--loglevel"] (Some "loglevel") None None
             (Some "Verboseness of output.  [default: %(default)s]")
             (Some (if negb (truthy v) then VStr "INFO" else v))
             (Some loglevel_choices) None]) in Hc.
  injection Hc as <-.
  eexists. split; [apply Hall, list_elem_of_here|].
  simpl. split_and!; try done. by destruct (truthy v).
Qed.

(** ** The description printed by the help action *)

Lemma prefix_nil (s : string) : String.prefix "" s = true.
Proof. by destruct s. Qed.

Lemma prefix_cons (a b : ascii) (x y : string) :
  String.prefix (String a x) (String b y) = Ascii.eqb b a && String.prefix x y.
Proof.
  simpl. destruct (ascii_dec a b) as [->|Hn].
  - by rewrite Ascii.eqb_refl.
  - symmetry. apply andb_false_iff. left. apply Ascii.eqb_neq. congruence.
Qed.

Lemma prefix_single (a c : ascii) (rest : string) :
  String.prefix (String a "") (String c rest) = Ascii.eqb c a.
Proof. by rewrite prefix_cons, prefix_nil, andb_true_r. Qed.

(** A replacement brings in no character that is neither in the text nor in
    the replacement. *)
Lemma replace_from_chars (old new : string) (c : ascii) (s : string) :
  ∀ k, char_in c (replace_from old new k s) = true →
       char_in c s = true ∨ char_in c new = true.
Proof.
  induction s as [|d s IH]; intros k H; cbn [replace_from] in H; [discriminate|].
  destruct k as [|k].
  - destruct (String.prefix old (String d s)).
    + rewrite char_in_app in H. apply orb_true_iff in H as [H|H]; [by right|].
      apply IH in H as [H|H]; [|by right]. left. simpl. by rewrite H, orb_true_r.
    + cbn [char_in] in H. apply orb_true_iff in H as [H|H].
      * left. simpl. by rewrite H.
      * apply IH in H as [H|H]; [|by right]. left. simpl. by rewrite H, orb_true_r.
  - apply IH in H as [H|H]; [|by right]. left. simpl. by rewrite H, orb_true_r.
Qed.

(** Replacing a character by nothing removes it, and changes nothing where
    it does not occur. *)
Lemma replace_char_removes (a : ascii) (s : string) :
  char_in a (replace_from (String a "") "" 0 s) = false.
Proof.
  induction s as [|d s IH]; [done|].
  cbn [replace_from]. rewrite prefix_single.
  destruct (Ascii.eqb d a) eqn:Hd; [exact IH|].
  simpl. by rewrite Hd, IH.
Qed.

Lemma replace_char_absent (a : ascii) (s : string) :
  char_in a s = false → replace_from (String a "") "" 0 s = s.
Proof.
  induction s as [|d s IH]; [done|]. simpl char_in. intros H.
  apply orb_false_iff in H as [Hd Hs].
  cbn [replace_from]. rewrite prefix_single, Hd. by rewrite IH.
Qed.

Lemma lstrip_chars (c : ascii) (s : string) :
  char_in c (lstrip s) = true → char_in c s = true.
Proof.
  induction s as [|d s IH]; [done|]. simpl.
  destruct (is_space d); [|done]. intros H. by rewrite (IH H), orb_true_r.
Qed.

Lemma rstrip_chars (c : ascii) (s : string) :
  char_in c (rstrip s) = true → char_in c s = true.
Proof.
  induction s as [|d s IH]; [done|]. simpl.
  destruct (rstrip s) as [|e r].
  - destruct (is_space d); [discriminate|]. simpl. rewrite orb_false_r.
    intros ->. done.
  - simpl in *. intros H. apply orb_true_iff in H as [->|H]; [done|].
    by rewrite (IH H), orb_true_r.
Qed.

Lemma strip_chars (c : ascii) (s : string) :
  char_in c (strip s) = true → char_in c s = true.
Proof. unfold strip. intros H. by apply lstrip_chars, rstrip_chars. Qed.

Lemma not_true_false (b : bool) : (b = true → False) → b = false.
Proof. by destruct b; [intros H; destruct H|]. Qed.

(** X23: the description that the help action prints is cleaned of line
    breaks and tabs: whatever the description, the cleaned text contains
    neither. *)
Theorem clean_description_single_line (description : string) :
  char_in nl_char (clean_description description) = false
  ∧ char_in tab_char (clean_description description) = false.
Proof.
  unfold clean_description. split; apply not_true_false; intros H;
    apply strip_chars in H.
  - unfold str_replace at 1, tab in H.
    apply replace_from_chars in H as [H|H]; [|discriminate].
    unfold str_replace at 1 in H.
    apply replace_from_chars in H as [H|H]; [|discriminate].
    unfold str_replace at 1 in H.
    apply replace_from_chars in H as [H|H]; [|discriminate].
    unfold str_replace, nl in H.
    pose proof (replace_char_removes nl_char description) as Hn.
    unfold nl_char in *. congruence.
  - unfold str_replace at 1, tab in H.
    match type of H with char_in _ (replace_from _ _ _ ?s) = _ =>
      pose proof (replace_char_removes tab_char s) as Hn end.
    unfold tab_char in *. congruence.
Qed.

Lemma starts_with_blank_rstrip (s : string) :
  starts_with_blank (rstrip s) = true → starts_with_blank s = true.
Proof.
  destruct s as [|d s]; [done|]. simpl.
  destruct (rstrip s); [|done]. by destruct (is_space d).
Qed.

Lemma double_blank_lstrip (s : string) :
  double_blank s = false → double_blank (lstrip s) = false.
Proof.
  induction s as [|d s IH]; [done|]. intros H. simpl.
  destruct (is_space d); [|done].
  simpl in H. apply orb_false_iff in H as [_ H]. by apply IH.
Qed.

Lemma double_blank_rstrip (s : string) :
  double_blank s = false → double_blank (rstrip s) = false.
Proof.
  induction s as [|d s IH]; [done|]. intros H.
  simpl in H. apply orb_false_iff in H as [Hd Hs].
  specialize (IH Hs). simpl.
  destruct (rstrip s) as [|e r] eqn:Hr.
  - destruct (is_space d); [done|]. simpl. by rewrite andb_false_r.
  - simpl. simpl in IH. rewrite IH, orb_false_r.
    apply not_true_false. intros Hb. apply andb_true_iff in Hb as [Hb1 Hb2].
    assert (Hsb : starts_with_blank s = true).
    { apply starts_with_blank_rstrip. by rewrite Hr. }
    by rewrite Hb1, Hsb in Hd.
Qed.

(** Removing pairs of blanks from the left leaves no two blanks in a row. *)
Lemma replace_blanks_no_double (s : string) :
  ∀ k, double_blank (replace_from "  " "" k s) = false.
Proof.
  induction s as [|d s IH]; intros k; [done|].
  cbn [replace_from]. destruct k as [|k]; [|apply IH].
  destruct (String.prefix "  " (String d s)) eqn:Hp; [apply IH|].
  simpl double_blank. rewrite IH, orb_false_r.
  apply not_true_false. intros Hb. apply andb_true_iff in Hb as [Hd Hs].
  apply Ascii.eqb_eq in Hd as ->.
  destruct s as [|e s']; [done|].
  rewrite prefix_cons, prefix_single, Ascii.eqb_refl in Hp.
  rewrite andb_true_l in Hp.
  cbn [replace_from] in Hs. rewrite prefix_cons, Hp, andb_false_l in Hs.
  cbn [starts_with_blank] in Hs. congruence.
Qed.

(** X24: for a description without tabs, the cleaned text never has two
    blanks in a row. *)
Theorem clean_description_no_double_blank (description : string) :
  char_in tab_char description = false →
  double_blank (clean_description description) = false.
Proof.
  intros Htab. unfold clean_description, strip.
  apply double_blank_rstrip, double_blank_lstrip.
  unfold str_replace at 1, tab.
  rewrite replace_char_absent; [apply replace_blanks_no_double|].
  apply not_true_false. intros H.
  unfold str_replace at 1 in H.
  apply replace_from_chars in H as [H|H]; [|discriminate].
  unfold str_replace at 1 in H.
  apply replace_from_chars in H as [H|H]; [|discriminate].
  unfold str_replace, nl in H.
  apply replace_from_chars in H as [H|H]; [|discriminate].
  unfold tab_char in Htab. congruence.
Qed.

Lemma prefix_app (a b : string) : String.prefix a (a +:+ b) = true.
Proof.
  induction a as [|c a IH]; [apply prefix_nil|].
  change (String c a +:+ b) with (String c (a +:+ b)).
  by rewrite prefix_cons, Ascii.eqb_refl, IH.
Qed.

Lemma breaks_indented_indent (s : string) :
  breaks_indented indent10 (indent10 +:+ s) = breaks_indented indent10 s.
Proof. done. Qed.

Lemma replace_breaks_indented (s : string) :
  breaks_indented indent10 (replace_from nl (nl +:+ indent10) 0 s) = true.
Proof.
  induction s as [|d s IH]; [done|].
  cbn [replace_from]. unfold nl at 1. rewrite prefix_single.
  destruct (Ascii.eqb d (ascii_of_nat 10)) eqn:Hd.
  - change (nl +:+ indent10) with (String (ascii_of_nat 10) indent10).
    change (String.length nl - 1) with 0.
    change (String (ascii_of_nat 10) indent10 +:+ ?x)
      with (String (ascii_of_nat 10) (indent10 +:+ x)).
    cbn [breaks_indented]. rewrite Ascii.eqb_refl, prefix_app.
    by rewrite breaks_indented_indent.
  - cbn [breaks_indented]. by rewrite Hd, IH.
Qed.

(** X25: whatever [textwrap.fill] returns for the cleaned description, the
    text that the help action prints for it starts with ten blanks and has
    ten blanks after every line break: each of its lines is indented. *)
Theorem format_description_indents_every_line
    (fill : string → nat → string) (description : string) :
  String.prefix indent10 (format_description fill description) = true
  ∧ breaks_indented indent10 (format_description fill description) = true.
Proof.
  unfold format_description. fold indent10. split.
  - apply prefix_app.
  - rewrite breaks_indented_indent. unfold str_replace, nl at 1.
    apply replace_breaks_indented.
Qed.

End Further.

(** * The second sample script, run *)

(** ** Examples *)

(** The description of the specification's example, cleaned; and a tab
    between two blanks, which leaves them side by side. *)
Example clean_description_example :
  clean_description "Does X.  Also Y." = "Does X. Also Y."
  ∧ clean_description ("a " +:+ tab +:+ " b") = "a  b".
Proof. split; vm_compute; reflexivity. Qed.

(** A level name spelled with the dotless i upper-cases to INFO and is
    accepted; [notset] is not. *)
Example setup_logger_dotless_example :
  setup_logger Sample2.E (VStr (Sample.dotless_i +:+ "nfo")) Sample.w_work
    = (Ok tt, set_logger 20 1 Sample.w_work)
  ∧ setup_logger Sample2.E (VStr "notset") Sample.w_work
    = (Raise (AssertionError "unrecognized log level: notset"), Sample.w_work).
Proof. split; vm_compute; reflexivity. Qed.

(** A command list in which a name occurs twice: [add_parser] refuses the
    second one. *)
Example make_parser_repeated_name_example :
  (make_parser Sample2.E
     (Sample2.commands ++ [(Some "rebind", Sample2.parser_for "status" [] false)])
     "Second sample." Sample2.w_count).1
  = Raise (OtherError "ArgumentError"
             ("argument " +:+ cursor_up +:+ ": conflicting subparser: rebind")).
Proof. vm_compute. reflexivity. Qed.

(** The command attached with [split_args] receives [threads=4], the default
    of its option, and its value is the exit status. *)
Example main_argparse_count_example :
  (main_argparse Sample2.E Sample2.commands "Second sample." Sample2.w_count).1
  = Ok (VInt 4).
Proof. vm_compute. reflexivity. Qed.

(** ** Instances of the further theorems *)

Lemma log_invocation_sets_level_witness :
  let args : Namespace := {[ "loglevel" := VStr ("warn" +:+ Sample.dotless_i +:+ "ng") ]} in
  let w' := (log_invocation Sample.E args Sample.w_work).2 in
  log_level w' = 30%Z
  ∧ (match args !! "loglevel" with
     | None => log_level w' = 10%Z
     | Some v => ∃ s, v = VStr s ∧ level_named (str_upper Sample.E s) = Some (log_level w')
     end
     ∧ log_handlers w' = S (log_handlers Sample.w_work)).
Proof.
  intros args w'. split; [vm_compute; reflexivity|].
  apply (log_invocation_sets_level Sample.E args Sample.w_work w').
  vm_compute. reflexivity.
Defined.

Lemma log_invocation_records_witness :
  let args := Sample2.run_args Sample2.w_count in
  let w' := (log_invocation Sample.E args Sample.w_work).2 in
  ∃ argv0 argv1 items,
    sys_argv Sample.w_work !! 0%nat = Some argv0
    ∧ sys_argv Sample.w_work !! 1%nat = Some argv1
    ∧ log_records w'
      = log_records Sample.w_work
          ++ [version_record Sample.E; invocation_record argv0 argv1 items]
    ∧ ∀ k v, (k, v) ∈ items ↔ args !! k = Some v ∧ k ≠ "command" ∧ k ≠ "func_main".
Proof.
  intros args w'.
  apply (log_invocation_records Sample.E args Sample.w_work w').
  vm_compute. reflexivity.
Defined.


Lemma make_scoped_tmp_dir_names_directory_witness :
  let args := Sample2.run_args Sample2.w_batch in
  let w1 := Sample2.started Sample2.w_batch in
  let w2 := (make_scoped_tmp_dir args w1).2 in
  tempfile_tempdir w2 = Some "/tmp/tmp-reads-purge-4711-0-k3x9ab"
  ∧ ∃ argv0 command random,
      head (sys_argv w1) = Some argv0
      ∧ args !! "command" = Some command
      ∧ random ∈ name_candidates w1
      ∧ let script := before_last_dot (os_path_basename argv0) in
        let proposed :=
          match os_environ w1 !! "LSB_JOBID", os_environ w1 !! "JOB_ID" with
          | Some job, _ | None, Some job =>
              "tmp-" +:+ script +:+ "-" +:+ pystr command +:+ "-" +:+ job +:+ "-"
                +:+ default "0" (os_environ w1 !! "LSB_JOBINDEX")
          | None, None => "tmp-" +:+ script +:+ "-" +:+ pystr command
          end in
        tempfile_tempdir w2 = Some (os_path_join "/tmp" ((proposed +:+ "-") +:+ random)).
Proof.
  intros args w1 w2. split; [vm_compute; reflexivity|].
  apply (make_scoped_tmp_dir_names_directory args w1 w2 "/tmp").
  - vm_compute. reflexivity.
  - vm_compute. reflexivity.
Defined.


Lemma main_argparse_cleanup_of_missing_dir_witness :
  let args := Sample2.run_args Sample2.w_purge in
  let w1 := Sample2.started Sample2.w_purge in
  let w2 := (make_scoped_tmp_dir args w1).2 in
  let w3 := (call_func_main Sample2.E args w2).2 in
  main_argparse Sample2.E Sample2.commands "Second sample." Sample2.w_purge
    = (Raise (FileNotFoundError "/tmp/tmp-reads-purge-k3x9ab"), w3).
Proof.
  intros args w1 w2 w3.
  apply (main_argparse_cleanup_of_missing_dir Sample2.E Sample2.commands
           "Second sample." Sample2.w_purge args w1 w2
           (call_func_main Sample2.E args w2).1 w3).
  - vm_compute. reflexivity.
  - vm_compute. reflexivity.
  - vm_compute. reflexivity.
  - vm_compute. reflexivity.
  - vm_compute. reflexivity.
  - vm_compute. reflexivity.
  - match goal with |- ?x ∉ ?X => apply (bool_decide_eq_false_1 (x ∈ X)) end.
    vm_compute. reflexivity.
Defined.

Lemma main_argparse_base_dir_missing_witness :
  let w1 := Sample2.started Sample2.w_no_tmp in
  main_argparse Sample2.E Sample2.commands "Second sample." Sample2.w_no_tmp
    = (Raise (FileNotFoundError "/tmp/tmp-reads-purge-k3x9ab"), set_name_candidates [] w1).
Proof.
  intros w1.
  apply (main_argparse_base_dir_missing Sample2.E Sample2.commands "Second sample."
           Sample2.w_no_tmp (Sample2.run_args Sample2.w_no_tmp) w1
           "/opt/viral-ngs/reads.py" ["purge"; "--verbose"] (VStr "purge") "/tmp"
           "k3x9ab" []).
  - vm_compute. reflexivity.
  - vm_compute. reflexivity.
  - vm_compute. reflexivity.
  - vm_compute. reflexivity.
  - vm_compute. reflexivity.
  - match goal with |- ?x ∉ ?X => apply (bool_decide_eq_false_1 (x ∈ X)) end.
    vm_compute. reflexivity.
  - match goal with |- ?x ∉ ?X => apply (bool_decide_eq_false_1 (x ∈ X)) end.
    vm_compute. reflexivity.
Defined.

Lemma sample_variadic : variadic (getargspec_of Sample.E (UserFunc "variadic")).
Proof. left. vm_compute. discriminate. Qed.

Lemma attach_main_rejects_variadic_first_witness :
  attach_main Sample.E (ArgumentParser None None true) (UserFunc "variadic") true
    Sample.w_work
  = (Raise (AssertionError assertion_message), Sample.w_work).
Proof.
  apply (attach_main_rejects_variadic_first Sample.E (ArgumentParser None None true)
           (UserFunc "variadic") Sample.w_work).
  exact sample_variadic.
Defined.

Lemma attach_main_description_is_docstring_witness :
  p_description Sample2.count_parser = doc_of Sample2.E (UserFunc "count")
  ∧ ∀ fill argv0 choice,
      print_subcommand fill argv0 choice Sample2.count_parser =
        (nl +:+ indent_space +:+ os_path_basename argv0 +:+ " "
           +:+ (color_BOLD +:+ choice +:+ color_END) +:+ " [...]")
        :: match doc_of Sample2.E (UserFunc "count") with
           | Some (String c d) => [format_description fill (String c d)]
           | _ => []
           end.
Proof.
  apply (attach_main_description_is_docstring Sample2.E (ArgumentParser None None true)
           (UserFunc "count") true Sample.w_work Sample2.count_parser Sample2.count_attached.2).
  vm_compute. reflexivity.
Defined.

Lemma run_command_binds_split_args_witness :
  let args := Sample2.run_args Sample2.w_count in
  let w := Sample2.started Sample2.w_count in
  run_command Sample2.E args w =
    call Sample2.E (UserFunc "count")
      (Keywords (dict_subset args
                   (list_to_set (as_args (getargspec_of Sample2.E (UserFunc "count")))))) w.
Proof.
  intros args w.
  apply (run_command_binds_split_args Sample2.E (ArgumentParser None None true)
           (UserFunc "count") Sample.w_work Sample2.count_parser Sample2.count_attached.2 args w).
  - vm_compute. reflexivity.
  - vm_compute. reflexivity.
  - vm_compute. reflexivity.
  - vm_compute. reflexivity.
Defined.

Lemma make_parser_multi_structure_witness :
  let made := make_parser Sample2.E Sample2.commands "Second sample." Sample2.w_count in
  let parser := match made.1 with Ok p => p | Raise _ => ArgumentParser None None false end in
  p_description parser = Some "Second sample."
  ∧ p_add_help parser = false
  ∧ p_defaults parser = ∅
  ∧ map a_option_strings (p_actions parser) = [["--help"; "-h"]; ["--version"; "-V"]; []]
  ∧ map a_kind (p_actions parser)
    = [SubcommandHelpAction; VersionAction (version Sample2.E); SubParsersAction]
  ∧ NoDup (map fst Sample2.commands)
  ∧ Forall2 (λ cmd entry,
               entry.1.1 = cmd.1
               ∧ ∃ wa wb, b_call1 cmd.2 (ArgumentParser None None true) wa = (Ok entry.2, wb))
      Sample2.commands (subcommands parser).
Proof.
  intros made parser.
  refine (proj1 (make_parser_multi_structure Sample2.E Sample2.commands "Second sample."
                   Sample2.w_count _) parser made.2 _).
  - reflexivity.
  - vm_compute. reflexivity.
Defined.

Lemma sample2_builders_keep_docs_mode :
  Forall (λ cmd : option string * Builder, keeps_docs_mode cmd.2) Sample2.commands.
Proof.
  assert (Hnone : ∀ p, impl_configure_parser (impls_of Sample2.E p) = None)
    by (by intros []).
  unfold Sample2.commands.
  repeat (apply Forall_cons; split; [|]); [..|done];
    unfold keeps_docs_mode; intros p w r w' H;
    exact (common_then_attach_keeps_environ Sample2.E _ _ _ _ _ _ _ _ Hnone H).
Qed.

Lemma make_parser_help_under_sphinx_witness :
  let made := make_parser Sample2.E Sample2.commands "Second sample." Sample2.w_sphinx in
  let parser := match made.1 with Ok p => p | Raise _ => ArgumentParser None None false end in
  Forall (λ entry : option string * option string * Parser, entry.1.2 = Some "   ")
    (subcommands parser).
Proof.
  intros made parser.
  apply (make_parser_help_under_sphinx Sample2.E Sample2.commands "Second sample."
           Sample2.w_sphinx parser made.2).
  - reflexivity.
  - exact sample2_builders_keep_docs_mode.
  - match goal with |- ?P => apply (bool_decide_eq_true_1 P) end. vm_compute. reflexivity.
  - vm_compute. reflexivity.
Defined.

Lemma main_argparse_empty_command_list_witness :
  main_argparse Sample.E [] "No commands." Sample.w_bare = (Raise IndexError, Sample.w_bare).
Proof.
  apply (main_argparse_empty_command_list Sample.E "No commands." Sample.w_bare
           "/opt/viral-ngs/assembly.py" "--frobnicate").
  reflexivity.
Defined.

Lemma run_cmd_unknown_command_witness :
  run_cmd Sample2.E (λ _, None) (ModuleObject (Some Sample2.commands)) "align" [VInt 3]
    Sample.w_work
  = (Raise (OtherError "KeyError" "align"), Sample.w_work).
Proof.
  apply (run_cmd_unknown_command Sample2.E (λ _, None) Sample2.commands "align" [VInt 3]
           Sample.w_work).
  match goal with |- ?x ∉ ?X => apply (bool_decide_eq_false_1 (x ∈ X)) end.
  vm_compute. reflexivity.
Defined.

Lemma run_cmd_discards_result_witness :
  let args_parsed := match Sample2.count_parsed.1 with Ok a => a | Raise _ => ∅ end in
  let r := (call_func_main Sample2.E args_parsed Sample2.count_parsed.2).1 in
  let w3 := (call_func_main Sample2.E args_parsed Sample2.count_parsed.2).2 in
  r = Ok (VInt 4)
  ∧ run_cmd Sample2.E (λ _, None) (ModuleObject (Some Sample2.commands)) "count"
      [VStr "--threads"; VInt 4] Sample.w_work
    = (Ok VNone, w3).
Proof.
  intros args_parsed r w3. split; [vm_compute; reflexivity|].
  apply (run_cmd_discards_result Sample2.E (λ _, None)
           [(Some "purge", Sample2.parser_for "purge" default_arglist false);
            (Some "rebind", Sample2.parser_for "rebind" default_arglist false)]
           [(Some "noisy", Sample2.parser_for "status" [("loglevel", VStr "EXCEPTION")] false)]
           "count" Sample2.count_builder [VStr "--threads"; VInt 4] Sample.w_work
           (match Sample2.count_built.1 with Ok p => p | Raise _ => ArgumentParser None None false end)
           Sample2.count_built.2 args_parsed Sample2.count_parsed.2 (Ok (VInt 4)) w3).
  - match goal with |- ?x ∉ ?X => apply (bool_decide_eq_false_1 (x ∈ X)) end.
    vm_compute. reflexivity.
  - vm_compute. reflexivity.
  - vm_compute. reflexivity.
  - vm_compute. reflexivity.
Defined.

Lemma common_args_appends_arguments_witness :
  let parser := ArgumentParser None None true in
  let parser' := match Sample2.common_parser.1.1 with Ok p => p | Raise _ => parser end in
  Sample2.common_parser.1.2 = parser'
  ∧ Sample2.common_parser.2 = Sample.w_work
  ∧ p_description parser' = p_description parser
  ∧ p_usage parser' = p_usage parser
  ∧ p_add_help parser' = p_add_help parser
  ∧ p_defaults parser' = p_defaults parser
  ∧ ∃ added,
      p_actions parser' = p_actions parser ++ added
      ∧ flat_map a_option_strings added = flat_map common_flags (map fst default_arglist)
      ∧ map a_dest added = flat_map common_dests (map fst default_arglist).
Proof.
  intros parser parser'.
  apply (common_args_appends_arguments Sample2.E Sample2.find_tmp_dir default_arglist
           parser parser' Sample2.common_parser.1.2 Sample.w_work Sample2.common_parser.2).
  vm_compute. reflexivity.
Defined.

(** A parser that has [--tmp_dirKeep] already: the call for [tmp_dir] fails
    after [--tmp_dir] has been added, behind [--loglevel]. *)
Lemma common_args_failures_witness :
  let arglist := [("loglevel", VNone); ("tmp_dir", VNone); ("threads", VInt 2)] in
  let parser :=
    add_argument
      (mkAction ["--tmp_dirKeep"] "tmp_dirKeep" StoreTrueAction (VBool false) None None None [])
      (ArgumentParser None None true) in
  let out := common_args Sample2.E Sample2.find_tmp_dir parser arglist Sample.w_work in
  let e := match out.1.1 with Ok _ => IndexError | Raise e => e end in
  let parser_left := out.1.2 in
  e = OtherError "ArgumentError"
        "argument --tmp_dirKeep: conflicting option string: --tmp_dirKeep"
  ∧ map a_option_strings (p_actions parser_left)
    = [["-h"; "--help"]; ["--tmp_dirKeep"]; ["--loglevel"]; ["--tmp_dir"]]
  ∧ (out.2 = Sample.w_work
     ∧ p_description parser_left = p_description parser
     ∧ p_usage parser_left = p_usage parser
     ∧ p_add_help parser_left = p_add_help parser
     ∧ p_defaults parser_left = p_defaults parser
     ∧ ∃ pre k post added,
         map fst arglist = pre ++ k :: post
         ∧ Forall (λ k', k' ∈ common_keys) pre
         ∧ p_actions parser_left = p_actions parser ++ added
         ∧ ((k ∉ common_keys)
            ∧ e = OtherError "Exception" ("unrecognized argument " +:+ k)
            ∧ flat_map a_option_strings added = flat_map common_flags pre
            ∨ k ∈ common_keys
              ∧ (∃ msg, e = OtherError "ArgumentError" msg)
              ∧ (∃ f, f ∈ common_flags k
                      ∧ f ∈ option_strings parser ++ flat_map common_flags pre)
              ∧ flat_map a_option_strings added
                = flat_map common_flags pre
                  ++ if bool_decide
                          (k = "tmp_dir"
                           ∧ "--tmp_dir" ∉ option_strings parser ++ flat_map common_flags pre)
                     then ["--tmp_dir"] else [])).
Proof.
  intros arglist parser out e parser_left.
  split; [vm_compute; reflexivity|]. split; [vm_compute; reflexivity|].
  apply (common_args_failures Sample2.E Sample2.find_tmp_dir arglist
           parser Sample.w_work e parser_left out.2).
  vm_compute. reflexivity.
Defined.

Lemma common_args_tmp_dir_defaults_witness :
  let parser' := match Sample2.common_parser.1.1 with
                 | Ok p => p | Raise _ => ArgumentParser None None true end in
  ∃ a keep,
    a ∈ p_actions parser' ∧ keep ∈ p_actions parser'
    ∧ a_option_strings a = ["--tmp_dir"] ∧ a_dest a = "tmp_dir" ∧ a_kind a = StoreAction
    ∧ a_default a = (if truthy VNone then VNone else VStr (Sample2.find_tmp_dir Sample.w_work))
    ∧ a_option_strings keep = ["--tmp_dirKeep"] ∧ a_dest keep = "tmp_dirKeep"
    ∧ a_kind keep = StoreTrueAction ∧ a_default keep = VBool false.
Proof.
  intros parser'.
  apply (common_args_tmp_dir_defaults Sample2.E Sample2.find_tmp_dir default_arglist
           (ArgumentParser None None true) parser' Sample2.common_parser.1.2
           Sample.w_work Sample2.common_parser.2 VNone).
  - vm_compute. reflexivity.
  - apply list_elem_of_here.
Defined.

Lemma common_args_loglevel_default_witness :
  let parser' := match Sample2.common_parser.1.1 with
                 | Ok p => p | Raise _ => ArgumentParser None None true end in
  ∃ a,
    a ∈ p_actions parser'
    ∧ a_option_strings a = ["--loglevel"] ∧ a_dest a = "loglevel" ∧ a_kind a = StoreAction
    ∧ a_default a = (if truthy VNone then VNone else VStr "INFO").
Proof.
  intros parser'.
  apply (common_args_loglevel_default Sample2.E Sample2.find_tmp_dir default_arglist
           (ArgumentParser None None true) parser' Sample2.common_parser.1.2
           Sample.w_work Sample2.common_parser.2 VNone).
  - vm_compute. reflexivity.
  - apply list_elem_of_further, list_elem_of_here.
Defined.

Lemma clean_description_no_double_blank_witness :
  double_blank (clean_description ("Count the reads.  Uses" +:+ nl +:+ "    several threads."))
  = false.
Proof.
  apply (clean_description_no_double_blank
           ("Count the reads.  Uses" +:+ nl +:+ "    several threads.")).
  vm_compute. reflexivity.
Defined.
